(** * A shallow embedding of the unseen-artwork acquisition engine of
    [landscapes.py] (squirt).

    The model follows the Python source function by function:
    - the saved-images directory [SAVE_DIR] is an association list of
      file names to files, in directory listing order;
    - the seen index [SEEN : Dict[str, Set[str]]] is a [gmap string (gset string)];
    - PIL's [Image.open] is an abstract decoder [decode] returning the
      image size, [UnidentifiedImageError], or any other exception;
    - network calls ([jget], [fetch]) are oracles returning a value or raising,
      and every call a session makes is recorded in a trace. *)

From Stdlib Require Import ZArith Ascii String List Bool Lia Sorting.Sorted Sorting.Permutation.
From stdpp Require Import base gmap strings list.
Import ListNotations.
Open Scope string_scope.

(* ------------------------------------------------------------------ *)
(** ** Strings and the seen-file regular expression *)

(** Python bytes. *)
Abbreviation bytes := (list Byte.byte).

Definition is_digit (c : ascii) : bool :=
  let n := nat_of_ascii c in Nat.leb 48 n && Nat.leb n 57.

Definition is_upper (c : ascii) : bool :=
  let n := nat_of_ascii c in Nat.leb 65 n && Nat.leb n 90.

Definition is_lower_c (c : ascii) : bool :=
  let n := nat_of_ascii c in Nat.leb 97 n && Nat.leb n 122.

Definition is_alnum (c : ascii) : bool :=
  is_digit c || is_upper c || is_lower_c c.

(** [str.lower] on ASCII. *)
Definition lower_c (c : ascii) : ascii :=
  if is_upper c then ascii_of_nat (nat_of_ascii c + 32) else c.

Fixpoint lower (s : string) : string :=
  match s with
  | EmptyString => EmptyString
  | String c s' => String (lower_c c) (lower s')
  end.

(** Case-insensitive ([re.I]) match of the literal [p] at the start of [s];
    returns the rest of [s]. *)
Fixpoint strip_prefix_ci (p s : string) : option string :=
  match p, s with
  | EmptyString, _ => Some s
  | String a p', String b s' =>
      if Ascii.eqb (lower_c a) (lower_c b) then strip_prefix_ci p' s' else None
  | String _ _, EmptyString => None
  end.

(** Greedy [\d+]: the longest prefix of ASCII digits and the rest. *)
Fixpoint span_digits (s : string) : string * string :=
  match s with
  | String c s' =>
      if is_digit c then let '(d, r) := span_digits s' in (String c d, r)
      else (EmptyString, s)
  | EmptyString => (EmptyString, EmptyString)
  end.

(** Python's [$] without MULTILINE: end of string, or just before a final
    newline. *)
Definition at_end (s : string) : bool :=
  match s with
  | EmptyString => true
  | String c EmptyString => Ascii.eqb c (ascii_of_nat 10)
  | _ => false
  end.

(** The alternatives of the group [(met|aic|cma|mia|ham|rijks|si)]. *)
Definition backend_tags : list string :=
  ["met"; "aic"; "cma"; "mia"; "ham"; "rijks"; "si"].

(** [\.(jpg|rej)$] *)
Definition match_ext (s : string) : bool :=
  match s with
  | String "." r =>
      match strip_prefix_ci "jpg" r with
      | Some r' => at_end r'
      | None => false
      end
      || match strip_prefix_ci "rej" r with
         | Some r' => at_end r'
         | None => false
         end
  | _ => false
  end.

(** [_(\d+)\.(jpg|rej)$] after the tag: the digits group. *)
Definition match_after_tag (s : string) : option string :=
  match s with
  | String "_" r =>
      let '(d, rest) := span_digits r in
      match d with
      | EmptyString => None
      | _ => if match_ext rest then Some d else None
      end
  | _ => None
  end.

(** The pattern anchored at the current position: the alternatives of the
    tag group are tried in order. Returns [(m[1], m[2])]. *)
Definition match_here (s : string) : option (string * string) :=
  match s with
  | String "_" r =>
      let fix try_tags (ts : list string) : option (string * string) :=
        match ts with
        | [] => None
        | t :: ts' =>
            match strip_prefix_ci t r with
            | Some r1 =>
                match match_after_tag r1 with
                | Some d => Some (substring 0 (String.length t) r, d)
                | None => try_tags ts'
                end
            | None => try_tags ts'
            end
        end in
      try_tags backend_tags
  | _ => None
  end.

(** [_seen_rx.search(name)]: the leftmost position where the pattern matches. *)
Fixpoint seen_rx_search (s : string) : option (string * string) :=
  match match_here s with
  | Some m => Some m
  | None =>
      match s with
      | EmptyString => None
      | String _ s' => seen_rx_search s'
      end
  end.

(* ------------------------------------------------------------------ *)
(** ** The saved-images directory and the seen index *)

Record file := mkfile { contents : bytes; atime : Z }.

(** [SAVE_DIR], in [iterdir] order. *)
Abbreviation directory := (list (string * file)).

Fixpoint dir_lookup (d : directory) (n : string) : option file :=
  match d with
  | [] => None
  | (n', f) :: d' => if String.eqb n n' then Some f else dir_lookup d' n
  end.

Definition dir_exists (d : directory) (n : string) : bool :=
  match dir_lookup d n with Some _ => true | None => false end.

(** Replace the file [n] in place, or add it at the end of the listing. *)
Fixpoint dir_put (d : directory) (n : string) (f : file) : directory :=
  match d with
  | [] => [(n, f)]
  | (n', f') :: d' =>
      if String.eqb n n' then (n', f) :: d' else (n', f') :: dir_put d' n f
  end.

(** [Path.touch(exist_ok=True)]: refresh the times of an existing file,
    create an empty one otherwise. *)
Definition touch (d : directory) (n : string) (now : Z) : directory :=
  match dir_lookup d n with
  | Some f => dir_put d n (mkfile (contents f) now)
  | None => dir_put d n (mkfile [] now)
  end.

(** [Path.write_bytes]. *)
Definition write_bytes (d : directory) (n : string) (data : bytes) (now : Z)
  : directory := dir_put d n (mkfile data now).

Abbreviation seen_index := (gmap string (gset string)).

(** [_index_seen()]. *)
Definition index_seen (d : directory) : seen_index :=
  fold_left
    (fun out '(name, _) =>
       match seen_rx_search name with
       | Some (g, oid) =>
           let g' := lower g in
           <[g' := {[oid]} ∪ default ∅ (out !! g')]> out
       | None => out
       end)
    d ∅.

Record state := mkstate { SEEN : seen_index; save_dir : directory }.

(** A fresh run: [SEEN = _index_seen()] over the directory left by the
    previous run. *)
Definition start_run (d : directory) : state := mkstate (index_seen d) d.

(** [seen(g, oid)]. *)
Definition seen (st : state) (g oid : string) : bool :=
  bool_decide (oid ∈ default ∅ (SEEN st !! g)).

Definition REJ_SUFFIX : string := ".rej".

(** [mark_seen(g, oid, good)]; [now] is the clock used by [touch]. *)
Definition mark_seen (st : state) (g oid : string) (good : bool) (now : Z)
  : state :=
  if seen st g oid then st
  else
    let S' := <[g := {[oid]} ∪ default ∅ (SEEN st !! g)]> (SEEN st) in
    if good then mkstate S' (save_dir st)
    else mkstate S' (touch (save_dir st) (g ++ "_" ++ oid ++ REJ_SUFFIX) now).

(** [slug = lambda s,l=60: re.sub(r"[^A-Za-z0-9]+","_",s)[:l].strip("_").lower() or "untitled"] *)
Fixpoint sub_nonalnum (in_run : bool) (s : string) : string :=
  match s with
  | EmptyString => EmptyString
  | String c s' =>
      if is_alnum c then String c (sub_nonalnum false s')
      else if in_run then sub_nonalnum true s'
      else String "_" (sub_nonalnum true s')
  end.

Fixpoint lstrip_us (s : string) : string :=
  match s with
  | String "_" s' => lstrip_us s'
  | _ => s
  end.

Definition rstrip_us (s : string) : string :=
  string_of_list_ascii
    (rev (list_ascii_of_string (lstrip_us
            (string_of_list_ascii (rev (list_ascii_of_string s)))))).

Definition slug (s : string) : string :=
  match lower (rstrip_us (lstrip_us (substring 0 60 (sub_nonalnum false s)))) with
  | EmptyString => "untitled"
  | r => r
  end.

(* ------------------------------------------------------------------ *)
(** ** Effects: exceptions and the trace of network calls *)

(** A Python call that returns a value or raises an [Exception]. *)
Inductive exc (A : Type) := Ret (a : A) | Raised.
Arguments Ret {A} a.
Arguments Raised {A}.

(** What PIL's [Image.open(...)] yields: the size [(width, height)],
    [UnidentifiedImageError], or another exception. *)
Inductive decoded := DecOk (w h : Z) | DecUnidentified | DecError.

(** The network calls a session makes: a search page, the resolution of an
    item (the [jget] of a Met object, the JSON lookups of the other
    back-ends), and the image [fetch]. *)
Inductive event := EvSearch | EvResolve (oid : string) | EvFetch (oid : string).

Definition is_fetch (e : event) : bool :=
  match e with EvFetch _ => true | _ => false end.

Definition count_fetches (tr : list event) : nat := length (List.filter is_fetch tr).

Definition MAX_ATTEMPTS : nat := 30.

(** How a back-end function ends: it returns a path, raises
    ["...: exhausted"], raises anything else (missing API key, failing
    first search of [met_random]), or, in the model only, the supplied
    search pages ran out while the source would keep on searching. *)
Inductive session_end :=
  | Found (p : string) | Exhausted | HardFail | NoMorePages.

(** A session run: how it ended, its final attempt counter [att], the
    state and the network calls made. *)
Abbreviation run := (session_end * nat * state * list event)%type.

Definition cons_ev (evs : list event) (r : run) : run :=
  let '(e, a, s, tr) := r in (e, a, s, (evs ++ tr)%list).

(** [want_wide is None or want_wide == wide] with [wide = im.width >= im.height]. *)
Definition orient_ok (want : option bool) (w h : Z) : bool :=
  match want with
  | None => true
  | Some b => Bool.eqb b (h <=? w)%Z
  end.

(** [SAVE_DIR / f"{slug(title)}_{grp}_{oid}.jpg"] *)
Definition target_name (title grp oid : string) : string :=
  slug title ++ "_" ++ grp ++ "_" ++ oid ++ ".jpg".

Section Engine.

Variable decode : bytes -> decoded.

(** [save_if_ok(data, title, grp, oid, want_wide)]; [now] is the clock. *)
Definition save_if_ok (st : state) (data : bytes) (title grp oid : string)
    (want : option bool) (now : Z) : exc (option string * state) :=
  match decode data with
  | DecOk w h =>
      if orient_ok want w h then
        let path := target_name title grp oid in
        let d := if dir_exists (save_dir st) path then save_dir st
                 else write_bytes (save_dir st) path data now in
        Ret (Some path, mark_seen (mkstate (SEEN st) d) grp oid true now)
      else Ret (None, mark_seen st grp oid false now)
  | DecUnidentified => Ret (None, mark_seen st grp oid false now)
  | DecError => Raised
  end.


(** The orientation requested ([w]), the clock, and the image [fetch]. *)
Variable want : option bool.
Variable now : Z.
Variable fetch : string -> exc bytes.

(** *** [met_random] *)

(** The fields of a Met object read by [met_random]; [None] is a missing key
    or a JSON null. *)
Record met_obj := mkmet {
  primaryImage : option string;
  primaryImageSmall : option string;
  met_title : option string }.

(** Python truthiness of an optional string. *)
Definition truthy (o : option string) : option string :=
  match o with Some EmptyString => None | _ => o end.

(** [obj.get("primaryImage") or obj.get("primaryImageSmall")], then [if not url]. *)
Definition met_url (o : met_obj) : option string :=
  match truthy (primaryImage o) with
  | Some u => Some u
  | None => truthy (primaryImageSmall o)
  end.

(** [jget(".../objects/{oid}")]. *)
Variable met_jget : string -> exc met_obj.

(** The [for oid in ids] loop of [met_random], with [att] the attempt
    counter. An exception inside the [try] is printed and counts one attempt;
    [if not url: continue] skips without counting. *)
Fixpoint met_loop (ids : list string) (att : nat) (st : state) : run :=
  match ids with
  | [] => (Exhausted, att, st, [])
  | oid :: rest =>
      if Nat.leb MAX_ATTEMPTS att then (Exhausted, att, st, [])
      else if seen st "met" oid then met_loop rest att st
      else
        match met_jget oid with
        | Raised => cons_ev [EvResolve oid] (met_loop rest (S att) st)
        | Ret o =>
            match met_url o with
            | None => cons_ev [EvResolve oid] (met_loop rest att st)
            | Some url =>
                let evs := [EvResolve oid; EvFetch oid] in
                match fetch url with
                | Raised => cons_ev evs (met_loop rest (S att) st)
                | Ret data =>
                    let title := default ("met_" ++ oid) (met_title o) in
                    match save_if_ok st data title "met" oid want now with
                    | Raised => cons_ev evs (met_loop rest (S att) st)
                    | Ret (Some p, st') => (Found p, att, st', evs)
                    | Ret (None, st') => cons_ev evs (met_loop rest (S att) st')
                    end
                end
            end
        end
  end.

(** [met_random(w)]: the search [jget] is outside the [try], so its failure
    escapes; [ids] is the shuffled list of object ids. *)
Definition met_random (search : exc (list string)) (st : state) : run :=
  match search with
  | Raised => (HardFail, 0, st, [EvSearch])
  | Ret ids => cons_ev [EvSearch] (met_loop ids 0 st)
  end.

(** *** The paged back-ends: [aic_random], [cma_random], [mia_random],
    [ham_random], [rijks_random], [si_random] *)

(** A search hit, reduced to its id ([str(h["id"])], [h["objectNumber"]], ...)
    and title. *)
Record item := mkitem { item_id : string; item_title : string }.

(** Outcome of one page: a path was returned, the page ended (or the
    [if att>=MAX_ATTEMPTS: break] fired), or an exception left the [try]. *)
Inductive page_end := PFound (p : string) | PEnd | PExc.

Abbreviation page_run := (page_end * nat * state * list event)%type.

Definition cons_pev (evs : list event) (r : page_run) : page_run :=
  let '(e, a, s, tr) := r in (e, a, s, (evs ++ tr)%list).

(** The [for h in hits] loop of a paged back-end with tag [tag].
    [resolve h] is the back-end's image reference for [h] ([None] when it is
    missing or empty, so that [if not img: continue] fires); it may raise
    (a [KeyError], or the content [jget] of [si_random]). The AIC back-end
    tests [not imgid] together with [seen]; both skip the hit alike. *)
Fixpoint page_items (tag : string) (resolve : item -> exc (option string))
    (hits : list item) (att : nat) (st : state) : page_run :=
  match hits with
  | [] => (PEnd, att, st, [])
  | h :: rest =>
      let oid := item_id h in
      if seen st tag oid then page_items tag resolve rest att st
      else
        match resolve h with
        | Raised => (PExc, att, st, [EvResolve oid])
        | Ret None => cons_pev [EvResolve oid] (page_items tag resolve rest att st)
        | Ret (Some url) =>
            let evs := [EvResolve oid; EvFetch oid] in
            match fetch url with
            | Raised => (PExc, att, st, evs)
            | Ret data =>
                match save_if_ok st data (item_title h) tag oid want now with
                | Raised => (PExc, att, st, evs)
                | Ret (Some p, st') => (PFound p, att, st', evs)
                | Ret (None, st') =>
                    if Nat.leb MAX_ATTEMPTS (S att) then (PEnd, S att, st', evs)
                    else cons_pev evs (page_items tag resolve rest (S att) st')
                end
            end
        end
  end.

(** The [while att<MAX_ATTEMPTS] loop: [pages] are the successive results of
    the search [jget] (with its random page or offset). An exception from the
    search or from the page counts one attempt. *)
Fixpoint page_loop (tag : string) (resolve : item -> exc (option string))
    (pages : list (exc (list item))) (att : nat) (st : state) : run :=
  if Nat.ltb att MAX_ATTEMPTS then
    match pages with
    | [] => (NoMorePages, att, st, [])
    | Raised :: rest => cons_ev [EvSearch] (page_loop tag resolve rest (S att) st)
    | Ret hits :: rest =>
        match page_items tag resolve hits att st with
        | (PFound p, a, s, tr) => (Found p, a, s, EvSearch :: tr)
        | (PEnd, a, s, tr) => cons_ev (EvSearch :: tr) (page_loop tag resolve rest a s)
        | (PExc, a, s, tr) => cons_ev (EvSearch :: tr) (page_loop tag resolve rest (S a) s)
        end
    end
  else (Exhausted, att, st, []).

(** A paged back-end; [has_key] is false when [ham], [rijks] or [si] miss
    their API key ([raise RuntimeError("..._API_KEY not set")]). *)
Definition page_random (tag : string) (has_key : bool)
    (resolve : item -> exc (option string)) (pages : list (exc (list item)))
    (st : state) : run :=
  if has_key then page_loop tag resolve pages 0 st else (HardFail, 0, st, []).

End Engine.

(* ------------------------------------------------------------------ *)
(** ** The offline fallback and [main] *)

Section Offline.

Variable decode : bytes -> decoded.

(** [str.endswith]. *)
Definition ends_with (suf s : string) : bool :=
  let n := String.length s in
  let k := String.length suf in
  Nat.leb k n && String.eqb (substring (n - k) k s) suf.

(** [SAVE_DIR.glob("*.jpg")] *)
Definition glob_jpg (d : directory) : directory :=
  List.filter (fun e => ends_with ".jpg" (fst e)) d.

(** [sorted(..., key=lambda p: p.stat().st_atime)]: a stable insertion sort. *)
Fixpoint insert_by_atime (x : string * file) (l : directory) : directory :=
  match l with
  | [] => [x]
  | y :: l' =>
      if (atime (snd x) <=? atime (snd y))%Z then x :: l
      else y :: insert_by_atime x l'
  end.

Fixpoint sort_by_atime (l : directory) : directory :=
  match l with
  | [] => []
  | x :: l' => insert_by_atime x (sort_by_atime l')
  end.

(** The access time of [n] becomes [now]: the effect of a successful
    [os.utime(p, None)], and of the kernel's access-time update when a read
    triggers one. The modification time, which [os.utime] also sets, is not
    represented: no code of the program reads it. *)
Definition utime (d : directory) (n : string) (now : Z) : directory :=
  match dir_lookup d n with
  | Some f => dir_put d n (mkfile (contents f) now)
  | None => d
  end.

(** Whether [os.utime(p, None)] succeeds on [p]; it raises, for instance,
    [PermissionError] on a file of another owner or [OSError] on a read-only
    file system. *)
Variable utime_ok : string -> bool.

(** Whether reading [p] (the header read of [Image.open]) makes the kernel
    update its access time: always under [strictatime], never under
    [noatime], and under [relatime] depending on the file's times. *)
Variable read_bumps : string -> bool.

(** The read of [n] by [Image.open]. *)
Definition open_read (d : directory) (n : string) (now : Z) : directory :=
  if read_bumps n then utime d n now else d.

(** The [for p in files] loop over the sorted [files], acting on the
    directory [d]: [Image.open(p)] reads the file; a file that opens with
    the requested orientation and whose [os.utime] succeeds is returned;
    any exception inside the [try] (a file that does not open, a failing
    [os.utime]) is passed over. *)
Fixpoint lc_loop (w : option bool) (now : Z) (files : directory) (d : directory)
  : option string * directory :=
  match files with
  | [] => (None, d)
  | (n, f) :: files' =>
      let d1 := open_read d n now in
      match decode (contents f) with
      | DecOk wd ht =>
          if orient_ok w wd ht then
            if utime_ok n then (Some n, utime d1 n now) else lc_loop w now files' d1
          else lc_loop w now files' d1
      | _ => lc_loop w now files' d1
      end
  end.

(** How [local_cycle] ends: a path (and the directory afterwards),
    [RuntimeError("no saved images for offline mode")], or
    [RuntimeError("offline: no orientation match")]. *)
Inductive lc_result :=
  | LcOk (p : string) (d : directory)
  | LcNoSaved
  | LcNoMatch.

(** [local_cycle(w)] at time [now]. *)
Definition local_cycle (d : directory) (w : option bool) (now : Z) : lc_result :=
  match sort_by_atime (glob_jpg d) with
  | [] => LcNoSaved
  | files =>
      match lc_loop w now files d with
      | (Some n, d') => LcOk n d'
      | (None, _) => LcNoMatch
      end
  end.

(** What [main] does, in order: run a back-end, display a path, call
    [local_cycle]. *)
Inductive main_event := MRun (tag : string) | MDisplay (p : string) | MLocal.

(** How the process ends: a back-end's picture shown, the offline picture
    shown, or [sys.exit("Offline contingency failed: ...")]. *)
Inductive main_end := Shown (p : string) | OfflineShown (p : string) | ExitFailure.

(** Exit status of the process. *)
Definition exit_status (e : main_end) : nat :=
  match e with ExitFailure => 1 | _ => 0 end.

(** [display(path, mode)], which may raise. *)
Variable display : string -> exc unit.

(** The [for be in backends] loop of [main]: [bes] is the shuffled list of
    back-ends, each with the outcome of [be(want)]. Anything raised by the
    back-end or by [display] is printed and the next back-end runs. *)
Fixpoint main_backends (bes : list (string * exc string))
  : option string * list main_event :=
  match bes with
  | [] => (None, [])
  | (t, r) :: rest =>
      match r with
      | Ret p =>
          match display p with
          | Ret _ => (Some p, [MRun t; MDisplay p])
          | Raised =>
              let '(o, tr) := main_backends rest in (o, MRun t :: MDisplay p :: tr)
          end
      | Raised =>
          let '(o, tr) := main_backends rest in (o, MRun t :: tr)
      end
  end.

(** [main()]: the back-ends, then the offline contingency over the directory
    [d] at time [now]. *)
Definition main (bes : list (string * exc string)) (d : directory)
    (w : option bool) (now : Z) : main_end * list main_event :=
  match main_backends bes with
  | (Some p, tr) => (Shown p, tr)
  | (None, tr) =>
      match local_cycle d w now with
      | LcOk p _ =>
          match display p with
          | Ret _ => (OfflineShown p, (tr ++ [MLocal; MDisplay p])%list)
          | Raised => (ExitFailure, (tr ++ [MLocal; MDisplay p])%list)
          end
      | _ => (ExitFailure, (tr ++ [MLocal])%list)
      end
  end.

End Offline.

(* ------------------------------------------------------------------ *)
(** ** Sample inputs *)

(** A decoder for sample payloads: two bytes [width; height] form an image,
    the empty payload is not an image, anything else makes PIL raise. *)
Definition sample_decode (b : bytes) : decoded :=
  match b with
  | [x; y] => DecOk (Z.of_nat (Byte.to_nat x)) (Z.of_nat (Byte.to_nat y))
  | [] => DecUnidentified
  | _ => DecError
  end.

(** A 12x8 (wide) and an 8x12 (tall) picture. *)
Definition wide_jpg : bytes := [Byte.x0c; Byte.x08].
Definition tall_jpg : bytes := [Byte.x08; Byte.x0c].

(** A Met object with an image URL and a title. *)
Definition sample_met_jget (oid : string) : exc met_obj :=
  Ret (mkmet (Some ("https://images.metmuseum.org/" ++ oid)) None (Some "View of Toledo")).

(** Every Met image is the wide picture. *)
Definition sample_fetch (url : string) : exc bytes := Ret wide_jpg.

(* ------------------------------------------------------------------ *)
(** ** Ledger lemmas *)

Lemma seen_mark_seen (st : state) (g oid : string) (good : bool) (now : Z) :
  seen (mark_seen st g oid good now) g oid = true.
Proof.
  unfold mark_seen. destruct (seen st g oid) eqn:Hs; [exact Hs|].
  destruct good; unfold seen; simpl; rewrite lookup_insert_eq; simpl;
    apply bool_decide_eq_true; set_solver.
Qed.

(** [mark_seen] on a pair already in [SEEN] returns at once. *)
Lemma mark_seen_present (st : state) (g oid : string) (good : bool) (now : Z) :
  seen st g oid = true -> mark_seen st g oid good now = st.
Proof. intros H. unfold mark_seen. rewrite H. reflexivity. Qed.

Lemma save_dir_mark_seen_good (st : state) (g oid : string) (now : Z) :
  save_dir (mark_seen st g oid true now) = save_dir st.
Proof. unfold mark_seen. destruct (seen st g oid); reflexivity. Qed.

(* ------------------------------------------------------------------ *)
(** ** C1: rejected pairs are not skipped in the next run *)

(** C1 (code defect). A Met id rejected in one run (its marker
    [met_436105.rej] is written and [SEEN] holds it) is fetched again by the
    next run: [_seen_rx] requires an underscore before the back-end tag, so
    the fresh [_index_seen()] misses the marker [met_436105.rej]. *)
Theorem met_rejected_refetched_next_run :
  match met_random sample_decode (Some false) 0 sample_fetch sample_met_jget
          (Ret ["436105"]) (start_run []) with
  | (_, _, st1, tr1) =>
      count_fetches tr1 = 1 /\ seen st1 "met" "436105" = true /\
      dir_exists (save_dir st1) "met_436105.rej" = true /\
      seen (start_run (save_dir st1)) "met" "436105" = false /\
      match met_random sample_decode (Some false) 1 sample_fetch sample_met_jget
              (Ret ["436105"]) (start_run (save_dir st1)) with
      | (e2, _, _, tr2) => e2 = Exhausted /\ count_fetches tr2 = 1
      end
  end.
Proof. vm_compute. repeat split. Qed.

(** C8 (code defect, the one of C1). A Met id rejected for a tall request is
    not kept rejected: the next run, asking for a wide picture, fetches it
    again and accepts it. *)
Theorem met_rejected_accepted_next_run :
  match met_random sample_decode (Some false) 0 sample_fetch sample_met_jget
          (Ret ["436105"]) (start_run []) with
  | (e1, _, st1, _) =>
      e1 = Exhausted /\ seen st1 "met" "436105" = true /\
      match met_random sample_decode (Some true) 1 sample_fetch sample_met_jget
              (Ret ["436105"]) (start_run (save_dir st1)) with
      | (e2, _, _, tr2) =>
          e2 = Found "view_of_toledo_met_436105.jpg" /\ count_fetches tr2 = 1
      end
  end.
Proof. vm_compute. repeat split. Qed.

(* ------------------------------------------------------------------ *)
(** ** C10: an existing target file is kept *)

(** C10. When the target file of an accepted candidate already exists,
    [save_if_ok] leaves the directory (and so the bytes of that file)
    unchanged, marks the pair seen and returns the existing path. *)
Theorem save_if_ok_keeps_existing (decode : bytes -> decoded) (st : state)
    (data : bytes) (title grp oid : string) (want : option bool) (now w h : Z)
    (old : file) :
  decode data = DecOk w h ->
  orient_ok want w h = true ->
  dir_lookup (save_dir st) (target_name title grp oid) = Some old ->
  exists st',
    save_if_ok decode st data title grp oid want now
      = Ret (Some (target_name title grp oid), st') /\
    save_dir st' = save_dir st /\
    dir_lookup (save_dir st') (target_name title grp oid) = Some old /\
    seen st' grp oid = true.
Proof.
  intros Hd Ho Hl. unfold save_if_ok. rewrite Hd, Ho.
  unfold dir_exists. rewrite Hl.
  eexists. split; [reflexivity|].
  rewrite save_dir_mark_seen_good. simpl.
  split; [reflexivity|]. split; [exact Hl|]. apply seen_mark_seen.
Qed.

Lemma save_if_ok_keeps_existing_witness :
  sample_decode wide_jpg = DecOk 12 8 /\
  exists st',
    save_if_ok sample_decode
      (mkstate ∅ [("view_of_toledo_met_436105.jpg", mkfile tall_jpg 5%Z)])
      wide_jpg "View of Toledo" "met" "436105" (Some true) 9
      = Ret (Some "view_of_toledo_met_436105.jpg", st') /\
    save_dir st' = [("view_of_toledo_met_436105.jpg", mkfile tall_jpg 5%Z)] /\
    dir_lookup (save_dir st') "view_of_toledo_met_436105.jpg"
      = Some (mkfile tall_jpg 5%Z) /\
    seen st' "met" "436105" = true.
Proof.
  split; [reflexivity|].
  apply (save_if_ok_keeps_existing sample_decode
           (mkstate ∅ [("view_of_toledo_met_436105.jpg", mkfile tall_jpg 5%Z)])
           wide_jpg "View of Toledo" "met" "436105" (Some true) 9 12 8
           (mkfile tall_jpg 5%Z)); vm_compute; reflexivity.
Defined.

(* ------------------------------------------------------------------ *)
(** ** One step of the session loops *)

Lemma count_fetches_app (l1 l2 : list event) :
  count_fetches (l1 ++ l2) = count_fetches l1 + count_fetches l2.
Proof. unfold count_fetches. rewrite List.filter_app, length_app. reflexivity. Qed.

Section Steps.

Variable decode : bytes -> decoded.
Variable want : option bool.
Variable now : Z.
Variable fetch : string -> exc bytes.

(** A seen Met id is skipped; once the budget is spent both sides stop. *)
Lemma met_loop_seen (met_jget : string -> exc met_obj) (oid : string)
    (rest : list string) (att : nat) (st : state) :
  seen st "met" oid = true ->
  met_loop decode want now fetch met_jget (oid :: rest) att st
    = met_loop decode want now fetch met_jget rest att st.
Proof.
  intros Hs. cbn [met_loop]. destruct (Nat.leb MAX_ATTEMPTS att) eqn:Hb.
  - destruct rest; cbn [met_loop]; [reflexivity|]. rewrite Hb. reflexivity.
  - rewrite Hs. reflexivity.
Qed.

Lemma met_loop_no_url (met_jget : string -> exc met_obj) (oid : string)
    (o : met_obj) (rest : list string) (att : nat) (st : state) :
  Nat.ltb att MAX_ATTEMPTS = true -> seen st "met" oid = false ->
  met_jget oid = Ret o -> met_url o = None ->
  met_loop decode want now fetch met_jget (oid :: rest) att st
    = cons_ev [EvResolve oid] (met_loop decode want now fetch met_jget rest att st).
Proof.
  intros Ha Hs Hj Hu. cbn [met_loop].
  assert (Nat.leb MAX_ATTEMPTS att = false) as ->
    by (apply Nat.ltb_lt in Ha; apply Nat.leb_gt; exact Ha).
  rewrite Hs, Hj, Hu. reflexivity.
Qed.

Lemma met_loop_fetch_fails (met_jget : string -> exc met_obj) (oid url : string)
    (o : met_obj) (rest : list string) (att : nat) (st : state) :
  Nat.ltb att MAX_ATTEMPTS = true -> seen st "met" oid = false ->
  met_jget oid = Ret o -> met_url o = Some url -> fetch url = Raised ->
  met_loop decode want now fetch met_jget (oid :: rest) att st
    = cons_ev [EvResolve oid; EvFetch oid]
        (met_loop decode want now fetch met_jget rest (S att) st).
Proof.
  intros Ha Hs Hj Hu Hf. cbn [met_loop].
  assert (Nat.leb MAX_ATTEMPTS att = false) as ->
    by (apply Nat.ltb_lt in Ha; apply Nat.leb_gt; exact Ha).
  rewrite Hs, Hj, Hu, Hf. reflexivity.
Qed.

Lemma page_items_seen (tag : string) (resolve : item -> exc (option string))
    (h : item) (hits : list item) (att : nat) (st : state) :
  seen st tag (item_id h) = true ->
  page_items decode want now fetch tag resolve (h :: hits) att st
    = page_items decode want now fetch tag resolve hits att st.
Proof. intros Hs. cbn [page_items]. rewrite Hs. reflexivity. Qed.

Lemma page_items_no_image (tag : string) (resolve : item -> exc (option string))
    (h : item) (hits : list item) (att : nat) (st : state) :
  seen st tag (item_id h) = false -> resolve h = Ret None ->
  page_items decode want now fetch tag resolve (h :: hits) att st
    = cons_pev [EvResolve (item_id h)]
        (page_items decode want now fetch tag resolve hits att st).
Proof. intros Hs Hr. cbn [page_items]. rewrite Hs, Hr. reflexivity. Qed.

Lemma page_loop_fetch_fails (tag : string) (resolve : item -> exc (option string))
    (h : item) (hits : list item) (url : string)
    (pages : list (exc (list item))) (att : nat) (st : state) :
  Nat.ltb att MAX_ATTEMPTS = true ->
  seen st tag (item_id h) = false -> resolve h = Ret (Some url) ->
  fetch url = Raised ->
  page_loop decode want now fetch tag resolve (Ret (h :: hits) :: pages) att st
    = cons_ev [EvSearch; EvResolve (item_id h); EvFetch (item_id h)]
        (page_loop decode want now fetch tag resolve pages (S att) st).
Proof.
  intros Ha Hs Hr Hf. cbn [page_loop]. rewrite Ha. cbn [page_items]. rewrite Hs, Hr, Hf. reflexivity.
Qed.

Lemma cons_pev_app (l1 l2 : list event) (r : page_end * nat * state * list event) :
  cons_pev l1 (cons_pev l2 r) = cons_pev (l1 ++ l2)%list r.
Proof. destruct r as [[[? ?] ?] ?]. cbn. rewrite app_assoc. reflexivity. Qed.

(** When the loop over the hits [pre] of a page reaches their end with
    budget left, the loop over [pre ++ rest] goes on with [rest] from there. *)
Lemma page_items_app (tag : string) (resolve : item -> exc (option string))
    (pre rest : list item) :
  forall att st a1 s1 tr1,
    page_items decode want now fetch tag resolve pre att st = (PEnd, a1, s1, tr1) ->
    Nat.ltb a1 MAX_ATTEMPTS = true ->
    page_items decode want now fetch tag resolve (pre ++ rest)%list att st
      = cons_pev tr1 (page_items decode want now fetch tag resolve rest a1 s1).
Proof.
  induction pre as [|h pre IH]; intros att st a1 s1 tr1 H Ha;
    cbn [page_items app] in H |- *.
  - inversion H; subst.
    destruct (page_items decode want now fetch tag resolve rest a1 s1)
      as [[[? ?] ?] ?]; reflexivity.
  - destruct (seen st tag (item_id h)); [apply IH; assumption|].
    destruct (resolve h) as [[url|]|]; [| |discriminate].
    + destruct (fetch url) as [data|]; [|discriminate].
      destruct (save_if_ok decode st data (item_title h) tag (item_id h) want now)
        as [[[p|] st']|]; try discriminate.
      destruct (Nat.leb MAX_ATTEMPTS (S att)) eqn:Hb.
      * inversion H; subst. apply Nat.leb_le in Hb. apply Nat.ltb_lt in Ha. lia.
      * destruct (page_items decode want now fetch tag resolve pre (S att) st')
          as [[[e a] s] tr] eqn:Hr.
        cbn [cons_pev] in H. inversion H; subst.
        rewrite (IH _ _ _ _ _ Hr Ha). apply cons_pev_app.
    + destruct (page_items decode want now fetch tag resolve pre att st)
        as [[[e a] s] tr] eqn:Hr.
      cbn [cons_pev] in H. inversion H; subst.
      rewrite (IH _ _ _ _ _ Hr Ha). apply cons_pev_app.
Qed.

(** A hit whose image fetch raises, wherever it sits in its page: the loop
    reached it through [pre] with budget left (state [s1], attempts [a1]);
    the rest of the page is dropped and the next search runs with one more
    attempt and the same state. *)
Lemma page_loop_fetch_fails_at (tag : string) (resolve : item -> exc (option string))
    (pre : list item) (h : item) (hits : list item) (url : string)
    (pages : list (exc (list item))) (att : nat) (st : state)
    (a1 : nat) (s1 : state) (tr1 : list event) :
  Nat.ltb att MAX_ATTEMPTS = true ->
  page_items decode want now fetch tag resolve pre att st = (PEnd, a1, s1, tr1) ->
  Nat.ltb a1 MAX_ATTEMPTS = true ->
  seen s1 tag (item_id h) = false -> resolve h = Ret (Some url) ->
  fetch url = Raised ->
  page_loop decode want now fetch tag resolve (Ret (pre ++ h :: hits)%list :: pages) att st
    = cons_ev (EvSearch :: tr1 ++ [EvResolve (item_id h); EvFetch (item_id h)])%list
        (page_loop decode want now fetch tag resolve pages (S a1) s1).
Proof.
  intros Ha Hpre Ha1 Hs Hr Hf. cbn [page_loop]. rewrite Ha.
  rewrite (page_items_app tag resolve pre (h :: hits) att st a1 s1 tr1 Hpre Ha1).
  cbn [page_items]. rewrite Hs, Hr, Hf. cbn [cons_pev]. reflexivity.
Qed.

End Steps.

(* ------------------------------------------------------------------ *)
(** ** The attempt budget *)

Ltac nat_bools :=
  repeat match goal with
  | H : Nat.leb _ _ = true |- _ => apply Nat.leb_le in H
  | H : Nat.leb _ _ = false |- _ => apply Nat.leb_gt in H
  | H : Nat.ltb _ _ = true |- _ => apply Nat.ltb_lt in H
  | H : Nat.ltb _ _ = false |- _ => apply Nat.ltb_ge in H
  end.

Ltac split_matches H :=
  repeat match type of H with
  | context [match ?x with _ => _ end] => destruct x eqn:?
  end.

Section Budget.

Variable decode : bytes -> decoded.
Variable want : option bool.
Variable now : Z.
Variable fetch : string -> exc bytes.

(** Every fetch made by [met_loop] from [att] on is paid for by the budget
    left, [MAX_ATTEMPTS - att]. *)
Lemma met_loop_bound (met_jget : string -> exc met_obj) (ids : list string) :
  forall att st e a s tr,
    att <= MAX_ATTEMPTS ->
    met_loop decode want now fetch met_jget ids att st = (e, a, s, tr) ->
    a <= MAX_ATTEMPTS /\ count_fetches tr + att <= MAX_ATTEMPTS.
Proof.
  induction ids as [|oid rest IH]; intros att st e a s tr Ha H;
    cbn [met_loop] in H.
  - inversion H; subst. cbn. lia.
  - split_matches H; nat_bools;
      try (inversion H; subst; cbn; unfold MAX_ATTEMPTS in *; lia);
      try (eapply IH; [lia | exact H]);
      match type of H with
      | cons_ev _ ?r = _ =>
          let Hr := fresh "Hr" in
          destruct r as [[[e' a'] s'] tr'] eqn:Hr; cbn [cons_ev] in H;
          inversion H; subst;
          apply IH in Hr; [|unfold MAX_ATTEMPTS in *; lia];
          unfold count_fetches in *; rewrite ?List.filter_app, ?length_app;
          cbn; unfold MAX_ATTEMPTS in *; lia
      end.
Qed.

(** Within one page the counter only grows; a page that ends normally has
    paid one attempt per fetch, a page left by [return] or by an exception
    has one fetch more, and then the counter is still below the cap. *)
Lemma page_items_bound (tag : string) (resolve : item -> exc (option string))
    (hits : list item) :
  forall att st e a s tr,
    att < MAX_ATTEMPTS ->
    page_items decode want now fetch tag resolve hits att st = (e, a, s, tr) ->
    att <= a /\
    match e with
    | PEnd => a <= MAX_ATTEMPTS /\ count_fetches tr + att <= a
    | _ => a < MAX_ATTEMPTS /\ count_fetches tr + att <= a + 1
    end.
Proof.
  induction hits as [|h rest IH]; intros att st e a s tr Ha H;
    cbn [page_items] in H.
  - inversion H; subst. cbn. lia.
  - split_matches H; nat_bools;
      try (inversion H; subst; cbn; unfold MAX_ATTEMPTS in *; lia);
      try (eapply IH; [lia | exact H]);
      match type of H with
      | cons_pev _ ?r = _ =>
          let Hr := fresh "Hr" in
          destruct r as [[[e' a'] s'] tr'] eqn:Hr;
          apply IH in Hr; [|unfold MAX_ATTEMPTS in *; lia];
          destruct e'; cbn [cons_pev] in H; inversion H; subst;
          unfold count_fetches in *; rewrite ?List.filter_app, ?length_app;
          cbn; unfold MAX_ATTEMPTS in *; lia
      end.
Qed.

Lemma page_loop_bound (tag : string) (resolve : item -> exc (option string))
    (pages : list (exc (list item))) :
  forall att st e a s tr,
    att <= MAX_ATTEMPTS ->
    page_loop decode want now fetch tag resolve pages att st = (e, a, s, tr) ->
    a <= MAX_ATTEMPTS /\ count_fetches tr + att <= MAX_ATTEMPTS.
Proof.
  induction pages as [|pg rest IH]; intros att st e a s tr Ha H;
    cbn [page_loop] in H.
  - destruct (Nat.ltb att MAX_ATTEMPTS); inversion H; subst; cbn; lia.
  - destruct (Nat.ltb att MAX_ATTEMPTS) eqn:Hlt; nat_bools;
      [|inversion H; subst; cbn; lia].
    destruct pg as [hits|].
    + destruct (page_items decode want now fetch tag resolve hits att st)
        as [[[pe a'] s'] tr'] eqn:Hp.
      pose proof (page_items_bound tag resolve hits att st pe a' s' tr' Hlt Hp)
        as HB.
      destruct pe; cbn in HB.
      * inversion H; subst. cbn. unfold count_fetches in *.
        cbn. unfold MAX_ATTEMPTS in *. lia.
      * destruct (page_loop decode want now fetch tag resolve rest a' s')
          as [[[e2 a2] s2] tr2] eqn:Hr.
        cbn [cons_ev] in H. inversion H; subst.
        apply IH in Hr; [|lia].
        unfold count_fetches in *.
        cbn. rewrite ?List.filter_app, ?length_app. unfold MAX_ATTEMPTS in *. lia.
      * destruct (page_loop decode want now fetch tag resolve rest (S a') s')
          as [[[e2 a2] s2] tr2] eqn:Hr.
        cbn [cons_ev] in H. inversion H; subst.
        apply IH in Hr; [|lia].
        unfold count_fetches in *.
        cbn. rewrite ?List.filter_app, ?length_app. unfold MAX_ATTEMPTS in *. lia.
    + destruct (page_loop decode want now fetch tag resolve rest (S att) st)
        as [[[e2 a2] s2] tr2] eqn:Hr.
      cbn [cons_ev] in H. inversion H; subst.
      apply IH in Hr; [|lia].
      unfold count_fetches in *. cbn. rewrite ?List.filter_app, ?length_app.
      lia.
Qed.

End Budget.

(* ------------------------------------------------------------------ *)
(** ** C5: the budget bound *)

(** C5. Every back-end session makes at most [MAX_ATTEMPTS] (30) image
    fetches and its attempt counter never exceeds 30; a candidate already in
    the seen index, or one without an image reference, is skipped with the
    counter unchanged. *)
Theorem session_budget_bound (decode : bytes -> decoded) (want : option bool)
    (now : Z) (fetch : string -> exc bytes) :
  (forall met_jget search st e a s tr,
     met_random decode want now fetch met_jget search st = (e, a, s, tr) ->
     a <= MAX_ATTEMPTS /\ count_fetches tr <= MAX_ATTEMPTS) /\
  (forall tag has_key resolve pages st e a s tr,
     page_random decode want now fetch tag has_key resolve pages st = (e, a, s, tr) ->
     a <= MAX_ATTEMPTS /\ count_fetches tr <= MAX_ATTEMPTS) /\
  (forall met_jget oid rest att st,
     seen st "met" oid = true ->
     met_loop decode want now fetch met_jget (oid :: rest) att st
       = met_loop decode want now fetch met_jget rest att st) /\
  (forall tag resolve h hits att st,
     seen st tag (item_id h) = true ->
     page_items decode want now fetch tag resolve (h :: hits) att st
       = page_items decode want now fetch tag resolve hits att st) /\
  (forall met_jget oid o rest att st,
     Nat.ltb att MAX_ATTEMPTS = true -> seen st "met" oid = false ->
     met_jget oid = Ret o -> met_url o = None ->
     met_loop decode want now fetch met_jget (oid :: rest) att st
       = cons_ev [EvResolve oid] (met_loop decode want now fetch met_jget rest att st)) /\
  (forall tag resolve h hits att st,
     seen st tag (item_id h) = false -> resolve h = Ret None ->
     page_items decode want now fetch tag resolve (h :: hits) att st
       = cons_pev [EvResolve (item_id h)]
           (page_items decode want now fetch tag resolve hits att st)).
Proof.
  split; [|split; [|split; [|split; [|split]]]].
  - intros met_jget search st e a s tr H. unfold met_random in H.
    destruct search as [ids|].
    + destruct (met_loop decode want now fetch met_jget ids 0 st)
        as [[[e' a'] s'] tr'] eqn:Hr.
      cbn [cons_ev] in H. inversion H; subst.
      apply met_loop_bound in Hr; [|unfold MAX_ATTEMPTS; lia].
      unfold count_fetches in *. cbn. lia.
    + inversion H; subst. cbn. unfold MAX_ATTEMPTS. lia.
  - intros tag has_key resolve pages st e a s tr H. unfold page_random in H.
    destruct has_key.
    + apply page_loop_bound in H; [lia | unfold MAX_ATTEMPTS; lia].
    + inversion H; subst. cbn. unfold MAX_ATTEMPTS. lia.
  - intros. apply met_loop_seen. assumption.
  - intros. apply page_items_seen. assumption.
  - intros. eapply met_loop_no_url; eassumption.
  - intros. apply page_items_no_image; assumption.
Qed.

Definition one_seen_met : state := mkstate {[ "met" := {[ "1" ]} ]} [].

Lemma session_budget_bound_witness :
  seen one_seen_met "met" "1" = true /\
  met_loop sample_decode None 0 sample_fetch sample_met_jget ["1"; "2"] 0 one_seen_met
    = met_loop sample_decode None 0 sample_fetch sample_met_jget ["2"] 0 one_seen_met.
Proof.
  split; [vm_compute; reflexivity|].
  apply (proj1 (proj2 (proj2 (session_budget_bound sample_decode None 0 sample_fetch))));
    vm_compute; reflexivity.
Defined.

(* ------------------------------------------------------------------ *)
(** ** C2: candidates without an image *)

(** A Met object without [primaryImage] and with an empty [primaryImageSmall]. *)
Definition no_image_met_jget (oid : string) : exc met_obj :=
  Ret (mkmet None (Some "") None).

(** C2 refuted. A Met candidate without an image URL is skipped but not
    recorded: after the session the pair is still unseen. *)
Lemma met_missing_image_not_recorded :
  match met_random sample_decode None 0 sample_fetch no_image_met_jget
          (Ret ["1"]) (start_run []) with
  | (e, a, st, tr) =>
      e = Exhausted /\ a = 0 /\ count_fetches tr = 0 /\
      seen st "met" "1" = false /\ save_dir st = []
  end.
Proof. vm_compute. repeat split. Qed.

(** C2 as amended. A candidate without an image reference is skipped with
    no image fetch, no attempt counted and the state (seen index and
    directory) unchanged, so it stays unrecorded. *)
Theorem missing_image_skipped_unrecorded (decode : bytes -> decoded)
    (want : option bool) (now : Z) (fetch : string -> exc bytes) :
  (forall met_jget oid o rest att st,
     Nat.ltb att MAX_ATTEMPTS = true -> seen st "met" oid = false ->
     met_jget oid = Ret o -> met_url o = None ->
     met_loop decode want now fetch met_jget (oid :: rest) att st
       = cons_ev [EvResolve oid] (met_loop decode want now fetch met_jget rest att st)) /\
  (forall tag resolve h hits att st,
     seen st tag (item_id h) = false -> resolve h = Ret None ->
     page_items decode want now fetch tag resolve (h :: hits) att st
       = cons_pev [EvResolve (item_id h)]
           (page_items decode want now fetch tag resolve hits att st)).
Proof.
  split.
  - intros. eapply met_loop_no_url; eassumption.
  - intros. apply page_items_no_image; assumption.
Qed.

Lemma missing_image_skipped_unrecorded_witness :
  Nat.ltb 0 MAX_ATTEMPTS = true /\ seen (start_run []) "met" "1" = false /\
  met_loop sample_decode None 0 sample_fetch no_image_met_jget ["1"; "2"] 0 (start_run [])
    = cons_ev [EvResolve "1"]
        (met_loop sample_decode None 0 sample_fetch no_image_met_jget ["2"] 0 (start_run [])).
Proof.
  split; [reflexivity|]. split; [vm_compute; reflexivity|].
  apply (proj1 (missing_image_skipped_unrecorded sample_decode None 0 sample_fetch)
           no_image_met_jget "1" (mkmet None (Some "") None));
    vm_compute; reflexivity.
Defined.

(* ------------------------------------------------------------------ *)
(** ** C3: transient failures *)

(** Thirty-one one-letter Met ids, "A" to "_". *)
Definition ids31 : list string :=
  map (fun n => String (ascii_of_nat (65 + n)) EmptyString) (seq 0 31).

Definition met_image_url (oid : string) : string :=
  "https://images.metmuseum.org/" ++ oid.

(** The fetch of "A" fails, "_" is a wide picture, all others are tall. *)
Definition flaky_fetch (url : string) : exc bytes :=
  if String.eqb url (met_image_url "A") then Raised
  else if String.eqb url (met_image_url "_") then Ret wide_jpg
  else Ret tall_jpg.

Definition fetched (oid : string) (tr : list event) : bool :=
  existsb (fun e => match e with EvFetch o => String.eqb o oid | _ => false end) tr.

(** C3 refuted. A wide request over [ids31]: the failed fetch of "A" and the
    29 tall pictures spend the 30 attempts, so the session is exhausted
    before it fetches "_", although only 29 candidates were classified. The
    failed candidate is left out of the seen index. *)
Lemma met_transient_failure_consumes_budget :
  match met_random sample_decode (Some true) 0 flaky_fetch sample_met_jget
          (Ret ids31) (start_run []) with
  | (e, a, st, tr) =>
      e = Exhausted /\ a = MAX_ATTEMPTS /\ count_fetches tr = 30 /\
      fetched "_" tr = false /\ seen st "met" "A" = false /\
      length (List.filter (fun oid => seen st "met" oid) ids31) = 29
  end.
Proof. vm_compute. repeat split. Qed.

(** C3 as amended. A candidate whose image fetch fails leaves the seen index
    and the directory unchanged and costs one attempt: [met_random] goes on
    with its next id; a paged back-end, wherever the candidate sits in its
    page (after any hits the loop skipped or rejected, with budget left),
    drops the rest of the page and searches again. *)
Theorem transient_failure_costs_one_attempt (decode : bytes -> decoded)
    (want : option bool) (now : Z) (fetch : string -> exc bytes) :
  (forall met_jget oid o url rest att st,
     Nat.ltb att MAX_ATTEMPTS = true -> seen st "met" oid = false ->
     met_jget oid = Ret o -> met_url o = Some url -> fetch url = Raised ->
     met_loop decode want now fetch met_jget (oid :: rest) att st
       = cons_ev [EvResolve oid; EvFetch oid]
           (met_loop decode want now fetch met_jget rest (S att) st)) /\
  (forall tag resolve pre h hits url pages att st a1 s1 tr1,
     Nat.ltb att MAX_ATTEMPTS = true ->
     page_items decode want now fetch tag resolve pre att st = (PEnd, a1, s1, tr1) ->
     Nat.ltb a1 MAX_ATTEMPTS = true ->
     seen s1 tag (item_id h) = false -> resolve h = Ret (Some url) ->
     fetch url = Raised ->
     page_loop decode want now fetch tag resolve (Ret (pre ++ h :: hits)%list :: pages) att st
       = cons_ev (EvSearch :: tr1 ++ [EvResolve (item_id h); EvFetch (item_id h)])%list
           (page_loop decode want now fetch tag resolve pages (S a1) s1)).
Proof.
  split.
  - intros. eapply met_loop_fetch_fails; eassumption.
  - intros. eapply page_loop_fetch_fails_at; eassumption.
Qed.

(** The image reference of a sample search hit. *)
Definition flaky_resolve (h : item) : exc (option string) :=
  Ret (Some (met_image_url (item_id h))).

Lemma transient_failure_costs_one_attempt_witness :
  (Nat.ltb 0 MAX_ATTEMPTS = true /\ seen (start_run []) "met" "A" = false /\
   sample_met_jget "A" = Ret (mkmet (Some (met_image_url "A")) None (Some "View of Toledo")) /\
   flaky_fetch (met_image_url "A") = Raised /\
   met_loop sample_decode (Some true) 0 flaky_fetch sample_met_jget ["A"; "_"] 0 (start_run [])
     = cons_ev [EvResolve "A"; EvFetch "A"]
         (met_loop sample_decode (Some true) 0 flaky_fetch sample_met_jget ["_"] 1
            (start_run []))) /\
  page_items sample_decode (Some true) 0 flaky_fetch "aic" flaky_resolve
    [mkitem "B" "Dunes"] 0 (start_run [])
    = (PEnd, 1, mark_seen (start_run []) "aic" "B" false 0, [EvResolve "B"; EvFetch "B"]) /\
  page_loop sample_decode (Some true) 0 flaky_fetch "aic" flaky_resolve
    [Ret [mkitem "B" "Dunes"; mkitem "A" "View of Toledo"; mkitem "_" "Wheat Field"]]
    0 (start_run [])
    = cons_ev [EvSearch; EvResolve "B"; EvFetch "B"; EvResolve "A"; EvFetch "A"]
        (page_loop sample_decode (Some true) 0 flaky_fetch "aic" flaky_resolve [] 2
           (mark_seen (start_run []) "aic" "B" false 0)).
Proof.
  split; [|split; [vm_compute; reflexivity|]].
  - split; [reflexivity|]. split; [vm_compute; reflexivity|].
    split; [reflexivity|]. split; [vm_compute; reflexivity|].
    apply (proj1 (transient_failure_costs_one_attempt sample_decode (Some true) 0 flaky_fetch)
             sample_met_jget "A" (mkmet (Some (met_image_url "A")) None (Some "View of Toledo"))
             (met_image_url "A"));
      vm_compute; reflexivity.
  - apply (proj2 (transient_failure_costs_one_attempt sample_decode (Some true) 0 flaky_fetch)
             "aic" flaky_resolve [mkitem "B" "Dunes"] (mkitem "A" "View of Toledo")
             [mkitem "_" "Wheat Field"] (met_image_url "A") [] 0 (start_run []) 1
             (mark_seen (start_run []) "aic" "B" false 0) [EvResolve "B"; EvFetch "B"]);
      vm_compute; reflexivity.
Defined.

(* ------------------------------------------------------------------ *)
(** ** C4: orientation of returned pictures *)




(* ------------------------------------------------------------------ *)
(** ** C6: the order of back-ends and fallback *)

(** The back-ends [main] ran, in order. *)
Definition runs (tr : list main_event) : list string :=
  flat_map (fun e => match e with MRun t => [t] | _ => [] end) tr.

(** A back-end attempt that did not end the loop: it raised, or its picture
    failed to display. *)
Definition attempt_failed (display : string -> exc unit) (r : exc string) : Prop :=
  r = Raised \/ exists q, r = Ret q /\ display q = Raised.

Lemma runs_app (l1 l2 : list main_event) : runs (l1 ++ l2)%list = (runs l1 ++ runs l2)%list.
Proof. unfold runs. apply flat_map_app. Qed.

Lemma main_backends_some (display : string -> exc unit)
    (bes : list (string * exc string)) :
  forall p tr0, main_backends display bes = (Some p, tr0) ->
  exists pre t rest,
    bes = (pre ++ (t, Ret p) :: rest)%list /\ display p = Ret tt /\
    Forall (fun b => attempt_failed display (snd b)) pre /\
    runs tr0 = (map fst pre ++ [t])%list /\ ~ In MLocal tr0.
Proof.
  induction bes as [|[t r] rest IH]; intros p tr0 H; cbn in H; [discriminate|].
  destruct r as [q|].
  - destruct (display q) as [[]|] eqn:Hd.
    + inversion H; subst. exists [], t, rest. cbn.
      repeat split; auto. intros [Hc|[Hc|[]]]; discriminate.
    + destruct (main_backends display rest) as [o tr'] eqn:Hr.
      inversion H; subst.
      destruct (IH p tr' eq_refl) as (pre & t' & rest' & -> & Hp & Hf & Hruns & Hl).
      exists ((t, Ret q) :: pre), t', rest'. cbn. repeat split; auto.
      * constructor; [|exact Hf]. right. eauto.
      * unfold runs in *. cbn in *. rewrite Hruns. reflexivity.
      * intros [Hc|[Hc|Hc]]; try discriminate. contradiction.
  - destruct (main_backends display rest) as [o tr'] eqn:Hr.
    inversion H; subst.
    destruct (IH p tr' eq_refl) as (pre & t' & rest' & -> & Hp & Hf & Hruns & Hl).
    exists ((t, Raised) :: pre), t', rest'. cbn. repeat split; auto.
    + constructor; [|exact Hf]. left. reflexivity.
    + unfold runs in *. cbn in *. rewrite Hruns. reflexivity.
    + intros [Hc|Hc]; [discriminate|contradiction].
Qed.

Lemma main_backends_none (display : string -> exc unit)
    (bes : list (string * exc string)) :
  forall tr0, main_backends display bes = (None, tr0) ->
  Forall (fun b => attempt_failed display (snd b)) bes /\
  runs tr0 = map fst bes /\ ~ In MLocal tr0.
Proof.
  induction bes as [|[t r] rest IH]; intros tr0 H; cbn in H.
  - inversion H; subst. cbn. repeat split; auto.
  - destruct r as [q|].
    + destruct (display q) as [[]|] eqn:Hd; [discriminate|].
      destruct (main_backends display rest) as [o tr'] eqn:Hr.
      inversion H; subst.
      destruct (IH tr' eq_refl) as (Hf & Hruns & Hl).
      cbn. repeat split.
      * constructor; [|exact Hf]. right. eauto.
      * unfold runs in *. cbn in *. rewrite Hruns. reflexivity.
      * intros [Hc|[Hc|Hc]]; try discriminate. contradiction.
    + destruct (main_backends display rest) as [o tr'] eqn:Hr.
      inversion H; subst.
      destruct (IH tr' eq_refl) as (Hf & Hruns & Hl).
      cbn. repeat split.
      * constructor; [|exact Hf]. left. reflexivity.
      * unfold runs in *. cbn in *. rewrite Hruns. reflexivity.
      * intros [Hc|Hc]; [discriminate|contradiction].
Qed.

(** C6 as amended. Back-ends run once each, in the shuffled order. The
    first one whose picture is returned and then displayed without error
    ends [main], and [local_cycle] is never called. If every back-end raised
    or its picture failed to display, [local_cycle] is called exactly once,
    after all back-ends, and no back-end runs after it. *)
Theorem main_fallback_order (decode : bytes -> decoded)
    (utime_ok read_bumps : string -> bool) (display : string -> exc unit) (bes : list (string * exc string))
    (d : directory) (w : option bool) (now : Z) :
  (forall p tr0, main_backends display bes = (Some p, tr0) ->
     exists pre t rest,
       bes = (pre ++ (t, Ret p) :: rest)%list /\ display p = Ret tt /\
       Forall (fun b => attempt_failed display (snd b)) pre /\
       main decode utime_ok read_bumps display bes d w now = (Shown p, tr0) /\
       runs tr0 = (map fst pre ++ [t])%list /\ ~ In MLocal tr0) /\
  (forall tr0, main_backends display bes = (None, tr0) ->
     Forall (fun b => attempt_failed display (snd b)) bes /\
     runs tr0 = map fst bes /\
     exists tail,
       snd (main decode utime_ok read_bumps display bes d w now) = (tr0 ++ MLocal :: tail)%list /\
       ~ In MLocal tr0 /\ ~ In MLocal tail /\ runs tail = []).
Proof.
  split.
  - intros p tr0 H.
    destruct (main_backends_some display bes p tr0 H)
      as (pre & t & rest & Hb & Hd & Hf & Hr & Hl).
    exists pre, t, rest. repeat split; auto.
    unfold main. rewrite H. reflexivity.
  - intros tr0 H.
    destruct (main_backends_none display bes tr0 H) as (Hf & Hr & Hl).
    split; [exact Hf|]. split; [exact Hr|].
    unfold main. rewrite H.
    destruct (local_cycle decode utime_ok read_bumps d w now) as [p d'| |].
    + destruct (display p) as [[]|]; cbn;
        exists [MDisplay p]; repeat split; auto;
        intros [Hc|[]]; discriminate.
    + exists []. cbn. repeat split; auto.
    + exists []. cbn. repeat split; auto.
Qed.

(** A display that fails on one picture. *)
Definition broken_display (p : string) : exc unit :=
  if String.eqb p "a_met_1.jpg" then Raised else Ret tt.

(** C6 refuted. The Met session returns a path, but displaying it raises:
    [main] runs the AIC back-end next and then the offline cycler. *)
Lemma met_success_then_offline :
  main sample_decode (fun _ => true) (fun _ => true) broken_display [("met", Ret "a_met_1.jpg"); ("aic", Raised)]
    [] None 0
  = (ExitFailure, [MRun "met"; MDisplay "a_met_1.jpg"; MRun "aic"; MLocal]).
Proof. vm_compute. reflexivity. Qed.

Lemma main_fallback_order_witness :
  main_backends broken_display [("aic", Raised); ("met", Ret "b_met_2.jpg")]
    = (Some "b_met_2.jpg", [MRun "aic"; MRun "met"; MDisplay "b_met_2.jpg"]) /\
  exists pre t rest,
    [("aic", Raised); ("met", Ret "b_met_2.jpg")]
      = (pre ++ (t, Ret "b_met_2.jpg") :: rest)%list /\
    broken_display "b_met_2.jpg" = Ret tt /\
    Forall (fun b => attempt_failed broken_display (snd b)) pre /\
    main sample_decode (fun _ => true) (fun _ => true) broken_display [("aic", Raised); ("met", Ret "b_met_2.jpg")] [] None 0
      = (Shown "b_met_2.jpg", [MRun "aic"; MRun "met"; MDisplay "b_met_2.jpg"]) /\
    runs [MRun "aic"; MRun "met"; MDisplay "b_met_2.jpg"] = (map fst pre ++ [t])%list /\
    ~ In MLocal [MRun "aic"; MRun "met"; MDisplay "b_met_2.jpg"].
Proof.
  split; [vm_compute; reflexivity|].
  apply (proj1 (main_fallback_order sample_decode (fun _ => true) (fun _ => true)
                  broken_display
                  [("aic", Raised); ("met", Ret "b_met_2.jpg")] [] None 0)).
  vm_compute. reflexivity.
Defined.

(* ------------------------------------------------------------------ *)
(** ** The offline cycler *)

(** The orientation test of the [for p in files] loop on one file. *)
Definition lc_match (decode : bytes -> decoded) (w : option bool)
    (e : string * file) : bool :=
  match decode (contents (snd e)) with
  | DecOk wd ht => orient_ok w wd ht
  | _ => false
  end.

(** A file the loop returns when it reaches it: it opens with the requested
    orientation and its [os.utime] succeeds. *)
Definition lc_sel (decode : bytes -> decoded) (utime_ok : string -> bool)
    (w : option bool) (e : string * file) : bool :=
  lc_match decode w e && utime_ok (fst e).

(** The reads of the files [l] by [Image.open], in order. *)
Definition reads (read_bumps : string -> bool) (l : directory) (d : directory)
    (now : Z) : directory :=
  fold_left (fun d' e => open_read read_bumps d' (fst e) now) l d.

Lemma lc_loop_some (decode : bytes -> decoded) (utime_ok read_bumps : string -> bool)
    (w : option bool) (now : Z) (l : directory) :
  forall d n d', lc_loop decode utime_ok read_bumps w now l d = (Some n, d') ->
  exists pre f post,
    l = (pre ++ (n, f) :: post)%list /\ lc_match decode w (n, f) = true /\
    utime_ok n = true /\
    Forall (fun e => lc_sel decode utime_ok w e = false) pre /\
    d' = utime (open_read read_bumps (reads read_bumps pre d now) n now) n now.
Proof.
  induction l as [|[n' f'] l IH]; intros d n d' H; cbn [lc_loop] in H; [discriminate|].
  destruct (decode (contents f')) as [wd ht| |] eqn:Hd.
  - destruct (orient_ok w wd ht) eqn:Ho; [destruct (utime_ok n') eqn:Hu|].
    + inversion H; subst. exists [], f', l. cbn. unfold lc_match. cbn. rewrite Hd.
      auto.
    + destruct (IH _ _ _ H) as (pre & f & post & -> & Hm & Hun & Hf & Hd').
      exists ((n', f') :: pre), f, post. repeat split; auto.
      constructor; [|exact Hf]. unfold lc_sel, lc_match. cbn. rewrite Hd, Ho, Hu.
      reflexivity.
    + destruct (IH _ _ _ H) as (pre & f & post & -> & Hm & Hun & Hf & Hd').
      exists ((n', f') :: pre), f, post. repeat split; auto.
      constructor; [|exact Hf]. unfold lc_sel, lc_match. cbn. rewrite Hd, Ho.
      reflexivity.
  - destruct (IH _ _ _ H) as (pre & f & post & -> & Hm & Hun & Hf & Hd').
    exists ((n', f') :: pre), f, post. repeat split; auto.
    constructor; [|exact Hf]. unfold lc_sel, lc_match. cbn. rewrite Hd. reflexivity.
  - destruct (IH _ _ _ H) as (pre & f & post & -> & Hm & Hun & Hf & Hd').
    exists ((n', f') :: pre), f, post. repeat split; auto.
    constructor; [|exact Hf]. unfold lc_sel, lc_match. cbn. rewrite Hd. reflexivity.
Qed.

Lemma lc_loop_none (decode : bytes -> decoded) (utime_ok read_bumps : string -> bool)
    (w : option bool) (now : Z) (l : directory) :
  forall d, fst (lc_loop decode utime_ok read_bumps w now l d) = None <->
  Forall (fun e => lc_sel decode utime_ok w e = false) l.
Proof.
  induction l as [|[n' f'] l IH]; intros d; cbn [lc_loop].
  - split; auto.
  - rewrite Forall_cons_iff, <- (IH (open_read read_bumps d n' now)).
    unfold lc_sel, lc_match. cbn [snd fst].
    destruct (decode (contents f')) as [wd ht| |];
      [destruct (orient_ok w wd ht); [destruct (utime_ok n')|]|..]; cbn;
      intuition discriminate.
Qed.

Lemma insert_by_atime_perm (x : string * file) (l : directory) :
  Permutation (insert_by_atime x l) (x :: l).
Proof.
  induction l as [|y l IH]; cbn; [reflexivity|].
  destruct (atime (snd x) <=? atime (snd y))%Z; [reflexivity|].
  transitivity (y :: x :: l); [constructor; exact IH | constructor].
Qed.

Lemma sort_by_atime_perm (l : directory) : Permutation (sort_by_atime l) l.
Proof.
  induction l as [|x l IH]; cbn; [reflexivity|].
  rewrite insert_by_atime_perm. constructor. exact IH.
Qed.

Lemma glob_jpg_In (d : directory) (e : string * file) :
  In e (glob_jpg d) <-> In e d /\ ends_with ".jpg" (fst e) = true.
Proof. unfold glob_jpg. apply List.filter_In. Qed.

Lemma In_sorted_glob (d : directory) (e : string * file) :
  In e (sort_by_atime (glob_jpg d)) <-> In e (glob_jpg d).
Proof. split; apply Permutation_in; [|symmetry]; apply sort_by_atime_perm. Qed.

(** What [local_cycle] returns. *)
Lemma local_cycle_ok (decode : bytes -> decoded) (utime_ok read_bumps : string -> bool)
    (d : directory) (w : option bool) (now : Z) (p : string) (d' : directory) :
  local_cycle decode utime_ok read_bumps d w now = LcOk p d' ->
  exists pre f post,
    sort_by_atime (glob_jpg d) = (pre ++ (p, f) :: post)%list /\
    lc_match decode w (p, f) = true /\ utime_ok p = true /\
    Forall (fun e => lc_sel decode utime_ok w e = false) pre /\
    d' = utime (open_read read_bumps (reads read_bumps pre d now) p now) p now.
Proof.
  unfold local_cycle. destruct (sort_by_atime (glob_jpg d)) as [|e l] eqn:Hs;
    [discriminate|].
  destruct (lc_loop decode utime_ok read_bumps w now (e :: l) d) as [[n|] d0] eqn:Hp;
    [|discriminate].
  intros H. inversion H; subst. apply lc_loop_some in Hp. exact Hp.
Qed.

Lemma Forall_perm_iff {A} (P : A -> Prop) (l1 l2 : list A) :
  Permutation l1 l2 -> (Forall P l1 <-> Forall P l2).
Proof.
  intros HP. rewrite !List.Forall_forall. split; intros H x Hx; apply H.
  - eapply Permutation_in; [symmetry; exact HP | exact Hx].
  - eapply Permutation_in; [exact HP | exact Hx].
Qed.

Lemma local_cycle_exists (decode : bytes -> decoded) (utime_ok read_bumps : string -> bool)
    (d : directory) (w : option bool) (now : Z) (e : string * file) :
  In e (glob_jpg d) -> lc_sel decode utime_ok w e = true ->
  exists p d', local_cycle decode utime_ok read_bumps d w now = LcOk p d'.
Proof.
  intros Hin Hm. apply In_sorted_glob in Hin. unfold local_cycle.
  destruct (sort_by_atime (glob_jpg d)) as [|e0 l] eqn:Hs; [destruct Hin|].
  destruct (lc_loop decode utime_ok read_bumps w now (e0 :: l) d) as [[p|] d0] eqn:Hp;
    [eauto|].
  assert (Hn : fst (lc_loop decode utime_ok read_bumps w now (e0 :: l) d) = None)
    by (rewrite Hp; reflexivity).
  apply lc_loop_none in Hn. rewrite List.Forall_forall in Hn.
  rewrite (Hn e Hin) in Hm. discriminate.
Qed.

(* ------------------------------------------------------------------ *)
(** ** C9: offline exhaustion and the failure exit *)

(** C9 as amended. [local_cycle] fails with "no saved images" exactly when
    there is no [*.jpg] file, and with "no orientation match" exactly when
    there are some but none of them both opens with the requested
    orientation and accepts [os.utime] (a matching file whose [os.utime]
    raises is passed over); a path it returns always has the requested
    orientation. The process exits with status 1 exactly when no back-end's
    picture was displayed and then either [local_cycle] failed or displaying
    its picture raised. *)
Theorem offline_failure_exit (decode : bytes -> decoded)
    (utime_ok read_bumps : string -> bool)
    (display : string -> exc unit) (bes : list (string * exc string))
    (d : directory) (w : option bool) (now : Z) :
  (local_cycle decode utime_ok read_bumps d w now = LcNoSaved <-> glob_jpg d = []) /\
  (local_cycle decode utime_ok read_bumps d w now = LcNoMatch <->
     glob_jpg d <> [] /\
     Forall (fun e => lc_sel decode utime_ok w e = false) (glob_jpg d)) /\
  (forall p d', local_cycle decode utime_ok read_bumps d w now = LcOk p d' ->
     exists f, In (p, f) (glob_jpg d) /\ lc_match decode w (p, f) = true) /\
  (exit_status (fst (main decode utime_ok read_bumps display bes d w now)) = 1 <->
     fst (main_backends display bes) = None /\
     forall p d', local_cycle decode utime_ok read_bumps d w now = LcOk p d' ->
       display p = Raised).
Proof.
  pose proof (sort_by_atime_perm (glob_jpg d)) as HP.
  split; [|split; [|split]].
  - unfold local_cycle. destruct (sort_by_atime (glob_jpg d)) as [|e l] eqn:Hs.
    + split; [intros _|reflexivity]. apply Permutation_nil in HP.
      exact HP.
    + split; [destruct (lc_loop decode utime_ok read_bumps w now (e :: l) d)
                as [[?|] ?]; discriminate|].
      intros Hg. rewrite Hg in HP. apply Permutation_length in HP. discriminate.
  - unfold local_cycle. destruct (sort_by_atime (glob_jpg d)) as [|e l] eqn:Hs.
    + split; [discriminate|]. intros [Hne _].
      apply Permutation_nil in HP. contradiction.
    + rewrite <- (Forall_perm_iff _ _ _ HP),
      <- (lc_loop_none decode utime_ok read_bumps w now (e :: l) d).
      split.
      * intros H. split.
        -- intros Hg. rewrite Hg in HP. apply Permutation_length in HP. discriminate.
        -- destruct (lc_loop decode utime_ok read_bumps w now (e :: l) d) as [[?|] ?];
             [discriminate|reflexivity].
      * intros [_ H]. destruct (lc_loop decode utime_ok read_bumps w now (e :: l) d)
          as [[?|] ?]; [discriminate|reflexivity].
  - intros p d' H. apply local_cycle_ok in H as (pre & f & post & Hs & Hm & _).
    exists f. split; [|exact Hm]. apply In_sorted_glob. rewrite Hs.
    apply in_or_app. right. left. reflexivity.
  - unfold main. destruct (main_backends display bes) as [[p|] tr]; cbn.
    + split; [discriminate|]. intros [Hc _]. discriminate.
    + destruct (local_cycle decode utime_ok read_bumps d w now) as [p d'| |].
      * destruct (display p) as [[]|] eqn:Hd; cbn.
        -- split; [discriminate|]. intros [_ H]. rewrite (H p d' eq_refl) in Hd.
           discriminate.
        -- split; [|reflexivity]. intros _. split; [reflexivity|].
           intros p' d'' H. inversion H; subst. exact Hd.
      * split; [|reflexivity]. intros _. split; [reflexivity|discriminate].
      * split; [|reflexivity]. intros _. split; [reflexivity|discriminate].
Qed.

(** One saved wide picture. *)
Definition one_wide_dir : directory := [("a_met_1.jpg", mkfile wide_jpg 3%Z)].

(** C9 refuted. All back-ends failed and [local_cycle] found a picture, but
    displaying it raised: the process exits with status 1 although the
    offline fallback was not exhausted. *)
Lemma offline_display_failure_exits :
  local_cycle sample_decode (fun _ => true) (fun _ => true) one_wide_dir None 5
    = LcOk "a_met_1.jpg" [("a_met_1.jpg", mkfile wide_jpg 5%Z)] /\
  main sample_decode (fun _ => true) (fun _ => true) (fun _ => Raised) [("met", Raised)]
    one_wide_dir None 5
    = (ExitFailure, [MRun "met"; MLocal; MDisplay "a_met_1.jpg"]) /\
  exit_status ExitFailure = 1.
Proof. vm_compute. repeat split. Qed.

Lemma offline_failure_exit_witness :
  local_cycle sample_decode (fun _ => true) (fun _ => true) one_wide_dir (Some true) 5
    = LcOk "a_met_1.jpg" [("a_met_1.jpg", mkfile wide_jpg 5%Z)] /\
  exists f, In ("a_met_1.jpg", f) (glob_jpg one_wide_dir) /\
    lc_match sample_decode (Some true) ("a_met_1.jpg", f) = true.
Proof.
  split; [vm_compute; reflexivity|].
  apply (proj1 (proj2 (proj2 (offline_failure_exit sample_decode (fun _ => true)
                               (fun _ => true) (fun _ => Ret tt)
                               [] one_wide_dir (Some true) 5)))
           "a_met_1.jpg" [("a_met_1.jpg", mkfile wide_jpg 5%Z)]).
  vm_compute. reflexivity.
Defined.

(* ------------------------------------------------------------------ *)
(** ** C7: recency rotation *)

Definition atime_le (e1 e2 : string * file) : Prop :=
  (atime (snd e1) <= atime (snd e2))%Z.

Lemma insert_by_atime_sorted (x : string * file) (l : directory) :
  StronglySorted atime_le l -> StronglySorted atime_le (insert_by_atime x l).
Proof.
  induction l as [|y l IH]; intros Hs; cbn.
  - constructor; constructor.
  - inversion Hs as [|y' l' Hl Hy]; subst.
    destruct (Z.leb_spec (atime (snd x)) (atime (snd y))) as [Hxy|Hxy].
    + constructor; [exact Hs|]. constructor; [exact Hxy|].
      rewrite List.Forall_forall in Hy |- *. intros z Hz.
      specialize (Hy z Hz). unfold atime_le in *. lia.
    + constructor; [apply IH; exact Hl|].
      rewrite (Forall_perm_iff _ _ _ (insert_by_atime_perm x l)).
      constructor; [unfold atime_le; lia | exact Hy].
Qed.

Lemma sort_by_atime_sorted (l : directory) :
  StronglySorted atime_le (sort_by_atime l).
Proof.
  induction l as [|x l IH]; cbn; [constructor|].
  apply insert_by_atime_sorted. exact IH.
Qed.

Lemma sorted_app_before (pre post : directory) (x y : string * file) :
  StronglySorted atime_le (pre ++ x :: post)%list -> In y post -> atime_le x y.
Proof.
  induction pre as [|a pre IH]; cbn; intros Hs Hy.
  - inversion Hs as [|? ? _ Hf]; subst.
    rewrite List.Forall_forall in Hf. apply Hf. exact Hy.
  - inversion Hs; subst. apply IH; assumption.
Qed.

Lemma dir_put_keeps (d : directory) (n m : string) (f F : file) :
  In (n, f) d -> n <> m -> In (n, f) (dir_put d m F).
Proof.
  induction d as [|[n' f'] d IH]; cbn; [intros []|].
  intros [H|H] Hne; destruct (String.eqb m n') eqn:E.
  - inversion H; subst. apply String.eqb_eq in E. congruence.
  - left. exact H.
  - right. exact H.
  - right. apply IH; assumption.
Qed.

Lemma dir_put_same (d : directory) (m : string) (g F : file) :
  NoDup (map fst d) -> In (m, g) (dir_put d m F) -> g = F.
Proof.
  induction d as [|[n' f'] d IH]; cbn; intros Hnd Hin.
  - destruct Hin as [H|[]]. inversion H. reflexivity.
  - inversion Hnd as [|? ? Hnotin Hnd']; subst.
    destruct (String.eqb m n') eqn:E.
    + apply String.eqb_eq in E. subst n'.
      destruct Hin as [H|H]; [inversion H; reflexivity|].
      exfalso. apply Hnotin. apply (in_map fst) in H. apply list_elem_of_In. exact H.
    + destruct Hin as [H|H].
      * inversion H; subst. rewrite String.eqb_refl in E. discriminate.
      * apply IH; assumption.
Qed.

Lemma dir_lookup_In (d : directory) (n : string) (f : file) :
  In (n, f) d -> exists g, dir_lookup d n = Some g.
Proof.
  induction d as [|[n' f'] d IH]; cbn; [intros []|].
  destruct (String.eqb n n') eqn:E; [eauto|].
  intros [H|H]; [|apply IH; exact H].
  inversion H; subst. rewrite String.eqb_refl in E. discriminate.
Qed.

Lemma dir_put_names (d : directory) (n : string) (g F : file) :
  dir_lookup d n = Some g -> map fst (dir_put d n F) = map fst d.
Proof.
  induction d as [|[n' f'] d IH]; cbn; [discriminate|].
  destruct (String.eqb n n') eqn:E; cbn.
  - reflexivity.
  - intros H. f_equal. apply IH. exact H.
Qed.

Lemma utime_names (d : directory) (n : string) (t : Z) :
  map fst (utime d n t) = map fst d.
Proof.
  unfold utime. destruct (dir_lookup d n) eqn:E; [eapply dir_put_names; exact E|].
  reflexivity.
Qed.

Lemma open_read_names (read_bumps : string -> bool) (d : directory) (n : string) (t : Z) :
  map fst (open_read read_bumps d n t) = map fst d.
Proof. unfold open_read. destruct (read_bumps n); [apply utime_names|reflexivity]. Qed.

Lemma reads_names (read_bumps : string -> bool) (l d : directory) (t : Z) :
  map fst (reads read_bumps l d t) = map fst d.
Proof.
  unfold reads. revert d. induction l as [|e l IH]; intros d; cbn; [reflexivity|].
  rewrite IH. apply open_read_names.
Qed.

Lemma utime_keeps (d : directory) (n k : string) (t : Z) (f : file) :
  In (k, f) d -> k <> n -> In (k, f) (utime d n t).
Proof.
  intros Hin Hne. unfold utime. destruct (dir_lookup d n); [|exact Hin].
  apply dir_put_keeps; assumption.
Qed.

Lemma open_read_keeps (read_bumps : string -> bool) (d : directory) (n k : string)
    (t : Z) (f : file) :
  In (k, f) d -> k <> n -> In (k, f) (open_read read_bumps d n t).
Proof.
  intros Hin Hne. unfold open_read. destruct (read_bumps n); [|exact Hin].
  apply utime_keeps; assumption.
Qed.

Lemma reads_keeps (read_bumps : string -> bool) (l d : directory) (k : string)
    (t : Z) (f : file) :
  In (k, f) d -> ~ In k (map fst l) -> In (k, f) (reads read_bumps l d t).
Proof.
  unfold reads. revert d. induction l as [|e l IH]; intros d Hin Hn; cbn; [exact Hin|].
  apply IH.
  - apply open_read_keeps; [exact Hin|]. intros ->. apply Hn. left. reflexivity.
  - intros H. apply Hn. right. exact H.
Qed.

Lemma utime_same (d : directory) (n : string) (t : Z) (g : file) :
  NoDup (map fst d) -> In (n, g) (utime d n t) -> atime g = t.
Proof.
  unfold utime. destruct (dir_lookup d n) as [f|] eqn:E; intros Hnd Hin.
  - rewrite (dir_put_same d n g _ Hnd Hin). reflexivity.
  - destruct (dir_lookup_In d n g Hin) as [g' Hl]. congruence.
Qed.

Lemma NoDup_fst_filter (g : string * file -> bool) (d : directory) :
  List.NoDup (map fst d) -> List.NoDup (map fst (List.filter g d)).
Proof.
  induction d as [|x d IH]; cbn; intros Hnd; [constructor|].
  inversion Hnd as [|? ? Hx Hnd']; subst.
  destruct (g x); cbn; [|apply IH; exact Hnd'].
  constructor; [|apply IH; exact Hnd'].
  intros Hin. apply Hx. apply in_map_iff in Hin as (y & Hy & Hyin).
  apply List.filter_In in Hyin as [Hyin _]. rewrite <- Hy. apply in_map. exact Hyin.
Qed.

Lemma NoDup_split_name (pre post : directory) (p nq : string) (f fq : file) :
  List.NoDup (map fst (pre ++ (p, f) :: post)%list) -> In (nq, fq) post ->
  ~ In nq (map fst pre) /\ nq <> p.
Proof.
  intros Hnd Hq. assert (Hqm : In nq (map fst post)) by (apply (in_map fst) in Hq; exact Hq).
  induction pre as [|x pre IH]; cbn in Hnd |- *.
  - inversion Hnd as [|? ? Hp _]; subst. split; [tauto|].
    intros ->. contradiction.
  - inversion Hnd as [|? ? Hx Hnd']; subst.
    destruct (IH Hnd') as [Hn Hp]. split; [|exact Hp].
    intros [H|H]; [|contradiction].
    apply Hx. rewrite map_app. apply in_or_app. right. right. rewrite H. exact Hqm.
Qed.

(** C7 as amended. Two consecutive offline selections return two different
    paths when the directory has two differently named [*.jpg] files of the
    requested orientation, [os.utime] succeeds on both in both selections,
    and both were last accessed before the clock reading [t1] of the first
    selection (so the refreshed marker is newer than the other one). *)
Theorem offline_rotation (decode : bytes -> decoded)
    (utime_ok1 read_bumps1 utime_ok2 read_bumps2 : string -> bool)
    (d : directory) (w : option bool) (t1 t2 : Z)
    (n1 n2 : string) (f1 f2 : file) :
  NoDup (map fst d) ->
  In (n1, f1) (glob_jpg d) -> In (n2, f2) (glob_jpg d) -> n1 <> n2 ->
  lc_match decode w (n1, f1) = true -> lc_match decode w (n2, f2) = true ->
  utime_ok1 n1 = true -> utime_ok1 n2 = true ->
  utime_ok2 n1 = true -> utime_ok2 n2 = true ->
  (atime f1 < t1)%Z -> (atime f2 < t1)%Z ->
  exists p1 d1 p2 d2,
    local_cycle decode utime_ok1 read_bumps1 d w t1 = LcOk p1 d1 /\
    local_cycle decode utime_ok2 read_bumps2 d1 w t2 = LcOk p2 d2 /\
    p1 <> p2.
Proof.
  intros Hnd H1 H2 Hne Hm1 Hm2 Hu11 Hu12 Hu21 Hu22 Ha1 Ha2.
  assert (Hnd' : List.NoDup (map fst d)) by (apply NoDup_ListNoDup; exact Hnd).
  assert (Hs1 : lc_sel decode utime_ok1 w (n1, f1) = true)
    by (unfold lc_sel; cbn [fst]; rewrite Hm1, Hu11; reflexivity).
  destruct (local_cycle_exists decode utime_ok1 read_bumps1 d w t1 _ H1 Hs1)
    as (p1 & d1 & Hc1).
  pose proof Hc1 as Hok1.
  apply local_cycle_ok in Hok1 as (pre & g1 & post & Hs & _ & _ & Hpre & Hd1).
  (* a second match, named apart from [p1] *)
  assert (Hq : exists nq fq, In (nq, fq) (glob_jpg d) /\
                 lc_match decode w (nq, fq) = true /\ utime_ok1 nq = true /\
                 utime_ok2 nq = true /\ (atime fq < t1)%Z /\ nq <> p1).
  { destruct (string_dec n1 p1) as [->|Hn].
    - exists n2, f2. repeat split; auto.
    - exists n1, f1. repeat split; auto. }
  destruct Hq as (nq & fq & Hqg & Hqm & Hqu1 & Hqu2 & Hqa & Hqn).
  (* it comes after [p1] in the first sorted list, so it was not read *)
  assert (Hpost : In (nq, fq) post).
  { pose proof (proj2 (In_sorted_glob d _) Hqg) as Hq'. rewrite Hs in Hq'.
    apply in_app_or in Hq' as [Hq'|[Hq'|Hq']].
    - rewrite List.Forall_forall in Hpre. specialize (Hpre _ Hq').
      unfold lc_sel in Hpre. cbn [fst] in Hpre. rewrite Hqm, Hqu1 in Hpre.
      discriminate.
    - inversion Hq'. congruence.
    - exact Hq'. }
  assert (Hsnd : List.NoDup (map fst (sort_by_atime (glob_jpg d)))).
  { apply (Permutation_NoDup (Permutation_map fst (Permutation_sym
             (sort_by_atime_perm (glob_jpg d))))).
    apply NoDup_fst_filter. exact Hnd'. }
  rewrite Hs in Hsnd.
  destruct (NoDup_split_name _ _ _ _ _ _ Hsnd Hpost) as [Hnpre _].
  (* so its file is the same in [d1] *)
  apply glob_jpg_In in Hqg as [Hqd Hqj].
  assert (Hq1 : In (nq, fq) d1).
  { rewrite Hd1. apply utime_keeps; [|exact Hqn].
    apply open_read_keeps; [|exact Hqn]. apply reads_keeps; assumption. }
  assert (Hq1g : In (nq, fq) (glob_jpg d1)) by (apply glob_jpg_In; split; assumption).
  assert (Hs2 : lc_sel decode utime_ok2 w (nq, fq) = true)
    by (unfold lc_sel; cbn [fst]; rewrite Hqm, Hqu2; reflexivity).
  destruct (local_cycle_exists decode utime_ok2 read_bumps2 d1 w t2 _ Hq1g Hs2)
    as (p2 & d2 & Hc2).
  exists p1, d1, p2, d2. split; [exact Hc1|]. split; [exact Hc2|].
  intros <-.
  apply local_cycle_ok in Hc2 as (pre2 & g2 & post2 & Hs2' & _ & _ & Hpre2 & _).
  assert (Hg2 : atime g2 = t1).
  { assert (Hin2 : In (p1, g2) d1).
    { apply (proj1 (glob_jpg_In d1 (p1, g2))). apply In_sorted_glob. rewrite Hs2'.
      apply in_or_app. right. left. reflexivity. }
    rewrite Hd1 in Hin2. apply utime_same in Hin2; [exact Hin2|].
    rewrite open_read_names, reads_names. exact Hnd. }
  apply In_sorted_glob in Hq1g. rewrite Hs2' in Hq1g.
  apply in_app_or in Hq1g as [Hq2|[Hq2|Hq2]].
  - rewrite List.Forall_forall in Hpre2. rewrite (Hpre2 _ Hq2) in Hs2. discriminate.
  - inversion Hq2. congruence.
  - pose proof (sort_by_atime_sorted (glob_jpg d1)) as Hsorted.
    rewrite Hs2' in Hsorted.
    pose proof (sorted_app_before _ _ _ _ Hsorted Hq2) as Hle.
    unfold atime_le in Hle. cbn in Hle. lia.
Qed.

(** Two wide pictures last opened at times 1 and 2. *)
Definition two_wide_dir : directory :=
  [("a_met_1.jpg", mkfile wide_jpg 1%Z); ("b_met_2.jpg", mkfile wide_jpg 2%Z)].

(** [os.utime] fails on [a_met_1.jpg] only. *)
Definition utime_fails_on_a (n : string) : bool := negb (String.eqb n "a_met_1.jpg").

(** C7 refuted. First, a clock behind the stored access times (an offline
    device without a real-time clock, at times 0 then 1): the refreshed
    marker of [a_met_1.jpg] is still the oldest, and it is returned twice.
    Second, [os.utime] raising on [a_met_1.jpg] (at times 10 then 11): that
    file is passed over each time and [b_met_2.jpg] is returned twice. *)
Lemma offline_same_path_twice :
  local_cycle sample_decode (fun _ => true) (fun _ => true) two_wide_dir (Some true) 0
    = LcOk "a_met_1.jpg" [("a_met_1.jpg", mkfile wide_jpg 0%Z);
                          ("b_met_2.jpg", mkfile wide_jpg 2%Z)] /\
  local_cycle sample_decode (fun _ => true) (fun _ => true)
    [("a_met_1.jpg", mkfile wide_jpg 0%Z); ("b_met_2.jpg", mkfile wide_jpg 2%Z)]
    (Some true) 1
    = LcOk "a_met_1.jpg" [("a_met_1.jpg", mkfile wide_jpg 1%Z);
                          ("b_met_2.jpg", mkfile wide_jpg 2%Z)] /\
  local_cycle sample_decode utime_fails_on_a (fun _ => true) two_wide_dir (Some true) 10
    = LcOk "b_met_2.jpg" [("a_met_1.jpg", mkfile wide_jpg 10%Z);
                          ("b_met_2.jpg", mkfile wide_jpg 10%Z)] /\
  local_cycle sample_decode utime_fails_on_a (fun _ => true)
    [("a_met_1.jpg", mkfile wide_jpg 10%Z); ("b_met_2.jpg", mkfile wide_jpg 10%Z)]
    (Some true) 11
    = LcOk "b_met_2.jpg" [("a_met_1.jpg", mkfile wide_jpg 11%Z);
                          ("b_met_2.jpg", mkfile wide_jpg 11%Z)].
Proof. vm_compute. repeat split. Qed.

Lemma offline_rotation_witness :
  NoDup (map fst two_wide_dir) /\
  exists p1 d1 p2 d2,
    local_cycle sample_decode (fun _ => true) (fun _ => true) two_wide_dir (Some true) 10
      = LcOk p1 d1 /\
    local_cycle sample_decode (fun _ => true) (fun _ => true) d1 (Some true) 11
      = LcOk p2 d2 /\
    p1 <> p2.
Proof.
  assert (Hnd : NoDup (map fst two_wide_dir)).
  { cbn. repeat constructor; set_solver. }
  split; [exact Hnd|].
  apply (offline_rotation sample_decode (fun _ => true) (fun _ => true)
           (fun _ => true) (fun _ => true) two_wide_dir (Some true) 10 11
           "a_met_1.jpg" "b_met_2.jpg" (mkfile wide_jpg 1%Z) (mkfile wide_jpg 2%Z)
           Hnd).
  - cbn. left. reflexivity.
  - cbn. right. left. reflexivity.
  - discriminate.
  - reflexivity.
  - reflexivity.
  - reflexivity.
  - reflexivity.
  - reflexivity.
  - reflexivity.
  - cbn. lia.
  - cbn. lia.
Defined.

(* ================================================================== *)
(** * Further properties of [landscapes.py] *)

(* ------------------------------------------------------------------ *)
(** ** The directory helpers *)

Lemma dir_lookup_put_ne (d : directory) (m n : string) (F : file) :
  n <> m -> dir_lookup (dir_put d m F) n = dir_lookup d n.
Proof.
  intros Hne. induction d as [|[n' f'] d IH]; cbn.
  - destruct (String.eqb n m) eqn:E; [apply String.eqb_eq in E; congruence|reflexivity].
  - destruct (String.eqb m n') eqn:E1; cbn.
    + apply String.eqb_eq in E1. subst n'.
      destruct (String.eqb n m) eqn:E2; [apply String.eqb_eq in E2; congruence|reflexivity].
    + destruct (String.eqb n n'); [reflexivity|exact IH].
Qed.

Lemma dir_lookup_put_eq (d : directory) (m : string) (F : file) :
  dir_lookup (dir_put d m F) m = Some F.
Proof.
  induction d as [|[n' f'] d IH]; cbn; [rewrite String.eqb_refl; reflexivity|].
  destruct (String.eqb m n') eqn:E; cbn; rewrite ?E; [|exact IH].
  reflexivity.
Qed.

Lemma dir_lookup_touch_ne (d : directory) (m n : string) (now : Z) :
  n <> m -> dir_lookup (touch d m now) n = dir_lookup d n.
Proof.
  intros Hne. unfold touch. destruct (dir_lookup d m); apply dir_lookup_put_ne; exact Hne.
Qed.

Lemma dir_exists_touch (d : directory) (m : string) (now : Z) :
  dir_exists (touch d m now) m = true.
Proof.
  unfold dir_exists, touch. destruct (dir_lookup d m); rewrite dir_lookup_put_eq; reflexivity.
Qed.

(* ------------------------------------------------------------------ *)
(** ** [mark_seen] and [save_if_ok] *)

Lemma seen_mark_seen_mono (st : state) (g oid g' oid' : string) (good : bool)
    (now : Z) :
  seen st g oid = true -> seen (mark_seen st g' oid' good now) g oid = true.
Proof.
  intros Hs. unfold mark_seen. destruct (seen st g' oid'); [exact Hs|].
  unfold seen in *. apply bool_decide_eq_true in Hs. apply bool_decide_eq_true.
  destruct good; cbn; rewrite lookup_insert; case_decide; subst; cbn; set_solver.
Qed.

Lemma mark_seen_other_tag (st : state) (g g' oid' : string) (good : bool) (now : Z) :
  g <> g' -> SEEN (mark_seen st g' oid' good now) !! g = SEEN st !! g.
Proof.
  intros Hne. unfold mark_seen. destruct (seen st g' oid'); [reflexivity|].
  destruct good; cbn; rewrite lookup_insert_ne; congruence.
Qed.

Lemma save_dir_mark_seen_ne (st : state) (g oid : string) (good : bool) (now : Z)
    (n : string) :
  n <> (g ++ "_" ++ oid ++ REJ_SUFFIX) ->
  dir_lookup (save_dir (mark_seen st g oid good now)) n = dir_lookup (save_dir st) n.
Proof.
  intros Hne. unfold mark_seen. destruct (seen st g oid); [reflexivity|].
  destruct good; cbn; [reflexivity|]. apply dir_lookup_touch_ne. exact Hne.
Qed.

(** The outcome of [save_if_ok] when it does not raise. *)
Lemma save_if_ok_cases (decode : bytes -> decoded) (st : state) (data : bytes)
    (title grp oid : string) (want : option bool) (now : Z)
    (r : option string) (st' : state) :
  save_if_ok decode st data title grp oid want now = Ret (r, st') ->
  (r = None /\ st' = mark_seen st grp oid false now) \/
  (r = Some (target_name title grp oid) /\
   st' = mark_seen (mkstate (SEEN st)
           (if dir_exists (save_dir st) (target_name title grp oid) then save_dir st
            else write_bytes (save_dir st) (target_name title grp oid) data now))
           grp oid true now).
Proof.
  unfold save_if_ok. destruct (decode data) as [w h| |]; intros H; try discriminate.
  - destruct (orient_ok want w h); inversion H; subst; auto.
  - inversion H; subst; auto.
Qed.

(** X1. When [save_if_ok] returns (with or without a path), the pair
    [(grp, oid)] is in the seen index, every pair seen before stays seen, and
    the entries of other back-ends are untouched. *)
Theorem save_if_ok_seen (decode : bytes -> decoded) (st : state) (data : bytes)
    (title grp oid : string) (want : option bool) (now : Z)
    (r : option string) (st' : state) :
  save_if_ok decode st data title grp oid want now = Ret (r, st') ->
  seen st' grp oid = true /\
  (forall g o, seen st g o = true -> seen st' g o = true) /\
  (forall g, g <> grp -> SEEN st' !! g = SEEN st !! g).
Proof.
  intros H. apply save_if_ok_cases in H as [[-> ->]|[-> ->]].
  - split; [apply seen_mark_seen|]. split.
    + intros g o Hs. apply seen_mark_seen_mono. exact Hs.
    + intros g Hg. apply mark_seen_other_tag. exact Hg.
  - split; [apply seen_mark_seen|]. split.
    + intros g o Hs. apply seen_mark_seen_mono. exact Hs.
    + intros g Hg. rewrite mark_seen_other_tag by exact Hg. reflexivity.
Qed.

Lemma save_if_ok_seen_witness :
  save_if_ok sample_decode (start_run []) tall_jpg "Dunes" "aic" "7" (Some true) 0
    = Ret (None, mark_seen (start_run []) "aic" "7" false 0) /\
  seen (mark_seen (start_run []) "aic" "7" false 0) "aic" "7" = true /\
  (forall g o, seen (start_run []) g o = true ->
     seen (mark_seen (start_run []) "aic" "7" false 0) g o = true) /\
  (forall g, g <> "aic" ->
     SEEN (mark_seen (start_run []) "aic" "7" false 0) !! g = SEEN (start_run []) !! g).
Proof.
  split; [reflexivity|].
  apply (save_if_ok_seen sample_decode (start_run []) tall_jpg "Dunes" "aic" "7"
           (Some true) 0 None).
  reflexivity.
Defined.

Lemma save_if_ok_path_exists (decode : bytes -> decoded) (st : state) (data : bytes)
    (title grp oid : string) (want : option bool) (now : Z) (p : string)
    (st' : state) :
  save_if_ok decode st data title grp oid want now = Ret (Some p, st') ->
  dir_exists (save_dir st') p = true.
Proof.
  intros H. apply save_if_ok_cases in H as [[? _]|[Hp ->]]; [discriminate|].
  injection Hp as ->. rewrite save_dir_mark_seen_good. cbn.
  destruct (dir_exists (save_dir st) (target_name title grp oid)) eqn:E; [exact E|].
  unfold dir_exists, write_bytes. rewrite dir_lookup_put_eq. reflexivity.
Qed.

(* ------------------------------------------------------------------ *)
(** ** What a session does to the seen index and to its trace *)

(** [st'] keeps every pair of [st] and differs from it only in the entry of
    the back-end [tag]. *)
Definition state_le (tag : string) (st st' : state) : Prop :=
  (forall g o, seen st g o = true -> seen st' g o = true) /\
  (forall g, g <> tag -> SEEN st' !! g = SEEN st !! g).

Lemma state_le_refl (tag : string) (st : state) : state_le tag st st.
Proof. split; auto. Qed.

Lemma state_le_trans (tag : string) (s1 s2 s3 : state) :
  state_le tag s1 s2 -> state_le tag s2 s3 -> state_le tag s1 s3.
Proof.
  intros [H1 H2] [H3 H4]. split; [auto|].
  intros g Hg. rewrite H4 by exact Hg. apply H2. exact Hg.
Qed.

Lemma save_if_ok_state_le (decode : bytes -> decoded) (st : state) (data : bytes)
    (title grp oid : string) (want : option bool) (now : Z)
    (r : option string) (st' : state) :
  save_if_ok decode st data title grp oid want now = Ret (r, st') ->
  state_le grp st st'.
Proof.
  intros H. apply save_if_ok_cases in H as [[-> ->]|[-> ->]]; split;
    first [ intros g o Hs; apply seen_mark_seen_mono; exact Hs
          | intros g Hg; rewrite mark_seen_other_tag by exact Hg; reflexivity ].
Qed.

(** The invariant of a session of back-end [tag] started in [st], ended in
    [s] with trace [tr]. *)
Definition session_inv (tag : string) (st s : state) (tr : list event) : Prop :=
  state_le tag st s /\ (forall o, seen st tag o = true -> ~ In (EvFetch o) tr).

Lemma session_inv_step (tag : string) (evs : list event) (st st' s : state)
    (tr : list event) :
  (forall o, In (EvFetch o) evs -> seen st tag o = false) ->
  state_le tag st st' ->
  session_inv tag st' s tr ->
  session_inv tag st s (evs ++ tr)%list.
Proof.
  intros Hevs Hle [Hle' Htr]. split; [eapply state_le_trans; eassumption|].
  intros o Ho Hin. apply in_app_or in Hin as [Hin|Hin].
  - apply Hevs in Hin. congruence.
  - apply (Htr o); [apply (proj1 Hle); exact Ho | exact Hin].
Qed.

Lemma session_inv_app (tag : string) (s1 s2 s3 : state) (tr1 tr2 : list event) :
  session_inv tag s1 s2 tr1 -> session_inv tag s2 s3 tr2 ->
  session_inv tag s1 s3 (tr1 ++ tr2)%list.
Proof.
  intros [Hle1 Htr1] [Hle2 Htr2]. split; [eapply state_le_trans; eassumption|].
  intros o Ho Hin. apply in_app_or in Hin as [Hin|Hin].
  - exact (Htr1 o Ho Hin).
  - apply (Htr2 o); [apply (proj1 Hle1); exact Ho | exact Hin].
Qed.

Lemma session_inv_search (tag : string) (st s : state) (tr : list event) :
  session_inv tag st s tr -> session_inv tag st s (EvSearch :: tr).
Proof.
  intros [Hle Htr]. split; [exact Hle|].
  intros o Ho [Hin|Hin]; [discriminate | exact (Htr o Ho Hin)].
Qed.

Lemma session_inv_nil (tag : string) (st : state) : session_inv tag st st [].
Proof. split; [apply state_le_refl|]. intros o _ []. Qed.

Ltac evs_fetch :=
  let o := fresh "o" in let Hin := fresh "Hin" in
  intros o Hin; cbn in Hin;
  repeat match type of Hin with _ \/ _ => destruct Hin as [Hin|Hin] end;
  try discriminate; try contradiction; injection Hin as <-; assumption.

Section Sessions.

Variable decode : bytes -> decoded.
Variable want : option bool.
Variable now : Z.
Variable fetch : string -> exc bytes.

Ltac cons_inv IH H :=
  match type of H with
  | cons_ev _ ?r = _ =>
      let Hr := fresh "Hr" in let Hi := fresh "Hi" in let Hf := fresh "Hf" in
      destruct r as [[[? ?] ?] ?] eqn:Hr; cbn [cons_ev] in H; inversion H; subst;
      apply IH in Hr as [Hi Hf]; split; [|exact Hf];
      first [ eapply (session_inv_step _ [EvResolve _; EvFetch _])
            | eapply (session_inv_step _ [EvResolve _])
            | eapply (session_inv_step _ [EvSearch])
            | eapply (session_inv_step _ [EvSearch; EvResolve _; EvFetch _]) ];
      [evs_fetch | | exact Hi];
      first [eapply save_if_ok_state_le; eassumption | apply state_le_refl]
  | cons_pev _ ?r = _ =>
      let Hr := fresh "Hr" in let Hi := fresh "Hi" in let Hf := fresh "Hf" in
      destruct r as [[[? ?] ?] ?] eqn:Hr; cbn [cons_pev] in H; inversion H; subst;
      apply IH in Hr as [Hi Hf]; split; [|exact Hf];
      first [ eapply (session_inv_step _ [EvResolve _; EvFetch _])
            | eapply (session_inv_step _ [EvResolve _])
            | eapply (session_inv_step _ [EvSearch])
            | eapply (session_inv_step _ [EvSearch; EvResolve _; EvFetch _]) ];
      [evs_fetch | | exact Hi];
      first [eapply save_if_ok_state_le; eassumption | apply state_le_refl]
  end.

Ltac leaf_inv H :=
  inversion H; subst; split;
  [ first
      [ apply session_inv_nil
      | rewrite <- (List.app_nil_r (_ :: _));
        eapply session_inv_step;
        [ evs_fetch
        | first [eapply save_if_ok_state_le; eassumption | apply state_le_refl]
        | apply session_inv_nil ] ]
  | first
      [ discriminate
      | let p := fresh "p" in let Hp := fresh "Hp" in
        intros p Hp; injection Hp as <-; eapply save_if_ok_path_exists;
        eassumption ] ].

Lemma met_loop_inv (met_jget : string -> exc met_obj) (ids : list string) :
  forall att st e a s tr,
    met_loop decode want now fetch met_jget ids att st = (e, a, s, tr) ->
    session_inv "met" st s tr /\
    (forall p, e = Found p -> dir_exists (save_dir s) p = true).
Proof.
  induction ids as [|oid rest IH]; intros att st e a s tr H; cbn [met_loop] in H.
  - inversion H; subst. split; [apply session_inv_nil | discriminate].
  - split_matches H;
      try (eapply IH; exact H);
      first [cons_inv IH H | leaf_inv H].
Qed.

Lemma page_items_inv (tag : string) (resolve : item -> exc (option string))
    (hits : list item) :
  forall att st e a s tr,
    page_items decode want now fetch tag resolve hits att st = (e, a, s, tr) ->
    session_inv tag st s tr /\
    (forall p, e = PFound p -> dir_exists (save_dir s) p = true).
Proof.
  induction hits as [|h rest IH]; intros att st e a s tr H; cbn [page_items] in H.
  - inversion H; subst. split; [apply session_inv_nil | discriminate].
  - split_matches H;
      try (eapply IH; exact H);
      first [cons_inv IH H | leaf_inv H].
Qed.

Lemma page_loop_inv (tag : string) (resolve : item -> exc (option string))
    (pages : list (exc (list item))) :
  forall att st e a s tr,
    page_loop decode want now fetch tag resolve pages att st = (e, a, s, tr) ->
    session_inv tag st s tr /\
    (forall p, e = Found p -> dir_exists (save_dir s) p = true).
Proof.
  induction pages as [|pg rest IH]; intros att st e a s tr H; cbn [page_loop] in H.
  - destruct (Nat.ltb att MAX_ATTEMPTS); inversion H; subst;
      (split; [apply session_inv_nil | discriminate]).
  - destruct (Nat.ltb att MAX_ATTEMPTS);
      [|inversion H; subst; split; [apply session_inv_nil | discriminate]].
    destruct pg as [hits|].
    + destruct (page_items decode want now fetch tag resolve hits att st)
        as [[[pe a'] s'] tr'] eqn:Hp.
      apply page_items_inv in Hp as [Hi Hf].
      destruct pe.
      * inversion H; subst. split; [apply session_inv_search; exact Hi|].
        intros p' Hp'. injection Hp' as <-. apply Hf. reflexivity.
      * destruct (page_loop decode want now fetch tag resolve rest a' s')
          as [[[e2 a2] s2] tr2] eqn:Hr.
        cbn [cons_ev] in H. inversion H; subst.
        apply IH in Hr as [Hi2 Hf2]. split; [|exact Hf2].
        apply session_inv_search. eapply session_inv_app; eassumption.
      * destruct (page_loop decode want now fetch tag resolve rest (S a') s')
          as [[[e2 a2] s2] tr2] eqn:Hr.
        cbn [cons_ev] in H. inversion H; subst.
        apply IH in Hr as [Hi2 Hf2]. split; [|exact Hf2].
        apply session_inv_search. eapply session_inv_app; eassumption.
    + destruct (page_loop decode want now fetch tag resolve rest (S att) st)
        as [[[e2 a2] s2] tr2] eqn:Hr.
      cbn [cons_ev] in H. inversion H; subst.
      apply IH in Hr as [Hi2 Hf2]. split; [|exact Hf2].
      apply session_inv_search. exact Hi2.
Qed.

End Sessions.

Lemma met_random_inv (decode : bytes -> decoded) (want : option bool) (now : Z)
    (fetch : string -> exc bytes) (met_jget : string -> exc met_obj)
    (search : exc (list string)) (st : state) e a s tr :
  met_random decode want now fetch met_jget search st = (e, a, s, tr) ->
  session_inv "met" st s tr /\
  (forall p, e = Found p -> dir_exists (save_dir s) p = true).
Proof.
  unfold met_random. destruct search as [ids|].
  - destruct (met_loop decode want now fetch met_jget ids 0 st)
      as [[[e' a'] s'] tr'] eqn:Hr.
    cbn [cons_ev]. intros H. inversion H; subst.
    apply met_loop_inv in Hr as [Hi Hf]. split; [|exact Hf].
    apply session_inv_search. exact Hi.
  - intros H. inversion H; subst. split; [|discriminate].
    apply session_inv_search. apply session_inv_nil.
Qed.

Lemma page_random_inv (decode : bytes -> decoded) (want : option bool) (now : Z)
    (fetch : string -> exc bytes) (tag : string) (has_key : bool)
    (resolve : item -> exc (option string)) (pages : list (exc (list item)))
    (st : state) e a s tr :
  page_random decode want now fetch tag has_key resolve pages st = (e, a, s, tr) ->
  session_inv tag st s tr /\
  (forall p, e = Found p -> dir_exists (save_dir s) p = true).
Proof.
  unfold page_random. destruct has_key.
  - apply page_loop_inv.
  - intros H. inversion H; subst. split; [apply session_inv_nil | discriminate].
Qed.

(** X2. A back-end session never fetches the image of an id that was already
    in the seen index of its back-end when the session started ([met] for
    [met_random], [tag] for a paged back-end). *)
Theorem session_skips_seen_ids (decode : bytes -> decoded) (want : option bool)
    (now : Z) (fetch : string -> exc bytes) :
  (forall met_jget search st e a s tr o,
     met_random decode want now fetch met_jget search st = (e, a, s, tr) ->
     seen st "met" o = true -> ~ In (EvFetch o) tr) /\
  (forall tag has_key resolve pages st e a s tr o,
     page_random decode want now fetch tag has_key resolve pages st = (e, a, s, tr) ->
     seen st tag o = true -> ~ In (EvFetch o) tr).
Proof.
  split.
  - intros met_jget search st e a s tr o H. apply met_random_inv in H as [[_ Ht] _].
    apply Ht.
  - intros tag has_key resolve pages st e a s tr o H.
    apply page_random_inv in H as [[_ Ht] _]. apply Ht.
Qed.

(** Sample inputs for the sessions. *)
Definition ledger_12 : state :=
  mkstate {[ "met" := {[ "1" ]}; "aic" := {[ "2" ]} ]} [].

Definition sample_resolve (h : item) : exc (option string) :=
  Ret (Some ("https://example.org/iiif/" ++ item_id h)).

Definition sample_pages : list (exc (list item)) :=
  [Ret [mkitem "2" "Haystacks"; mkitem "3" "Water Lilies"]].

Lemma session_skips_seen_ids_witness :
  ~ In (EvFetch "1")
      (snd (met_random sample_decode (Some true) 0 sample_fetch sample_met_jget
              (Ret ["1"; "5"]) ledger_12)) /\
  ~ In (EvFetch "2")
      (snd (page_random sample_decode (Some true) 0 sample_fetch "aic" true
              sample_resolve sample_pages ledger_12)).
Proof.
  split.
  - destruct (met_random sample_decode (Some true) 0 sample_fetch sample_met_jget
                (Ret ["1"; "5"]) ledger_12) as [[[e a] s] tr] eqn:E.
    apply (proj1 (session_skips_seen_ids sample_decode (Some true) 0 sample_fetch)
             sample_met_jget (Ret ["1"; "5"]) ledger_12 e a s tr "1" E).
    reflexivity.
  - destruct (page_random sample_decode (Some true) 0 sample_fetch "aic" true
                sample_resolve sample_pages ledger_12) as [[[e a] s] tr] eqn:E.
    apply (proj2 (session_skips_seen_ids sample_decode (Some true) 0 sample_fetch)
             "aic" true sample_resolve sample_pages ledger_12 e a s tr "2" E).
    reflexivity.
Defined.

(** X3. A back-end session only adds to the seen index: every pair seen when
    the session starts is still seen when it ends, and the entries of the
    other back-ends are left as they were. *)
Theorem session_ledger_grows (decode : bytes -> decoded) (want : option bool)
    (now : Z) (fetch : string -> exc bytes) :
  (forall met_jget search st e a s tr,
     met_random decode want now fetch met_jget search st = (e, a, s, tr) ->
     (forall g o, seen st g o = true -> seen s g o = true) /\
     (forall g, g <> "met" -> SEEN s !! g = SEEN st !! g)) /\
  (forall tag has_key resolve pages st e a s tr,
     page_random decode want now fetch tag has_key resolve pages st = (e, a, s, tr) ->
     (forall g o, seen st g o = true -> seen s g o = true) /\
     (forall g, g <> tag -> SEEN s !! g = SEEN st !! g)).
Proof.
  split.
  - intros met_jget search st e a s tr H. apply met_random_inv in H as [[Hle _] _].
    exact Hle.
  - intros tag has_key resolve pages st e a s tr H.
    apply page_random_inv in H as [[Hle _] _]. exact Hle.
Qed.

Lemma session_ledger_grows_witness :
  seen (snd (fst (met_random sample_decode (Some false) 0 sample_fetch
                    sample_met_jget (Ret ["5"]) ledger_12))) "aic" "2" = true /\
  SEEN (snd (fst (page_random sample_decode (Some true) 0 sample_fetch "aic" true
                    sample_resolve sample_pages ledger_12))) !! "met"
    = SEEN ledger_12 !! "met".
Proof.
  split.
  - destruct (met_random sample_decode (Some false) 0 sample_fetch sample_met_jget
                (Ret ["5"]) ledger_12) as [[[e a] s] tr] eqn:E.
    apply (proj1 (session_ledger_grows sample_decode (Some false) 0 sample_fetch)
             sample_met_jget (Ret ["5"]) ledger_12 e a s tr E).
    reflexivity.
  - destruct (page_random sample_decode (Some true) 0 sample_fetch "aic" true
                sample_resolve sample_pages ledger_12) as [[[e a] s] tr] eqn:E.
    apply (proj2 (session_ledger_grows sample_decode (Some true) 0 sample_fetch)
             "aic" true sample_resolve sample_pages ledger_12 e a s tr E).
    discriminate.
Defined.

(** X4. A path returned by a back-end session names a file that is present in
    the saved-images directory when the session ends. *)
Theorem session_found_path_saved (decode : bytes -> decoded) (want : option bool)
    (now : Z) (fetch : string -> exc bytes) :
  (forall met_jget search st p a s tr,
     met_random decode want now fetch met_jget search st = (Found p, a, s, tr) ->
     dir_exists (save_dir s) p = true) /\
  (forall tag has_key resolve pages st p a s tr,
     page_random decode want now fetch tag has_key resolve pages st = (Found p, a, s, tr) ->
     dir_exists (save_dir s) p = true).
Proof.
  split.
  - intros met_jget search st p a s tr H. apply met_random_inv in H as [_ Hf].
    apply Hf. reflexivity.
  - intros tag has_key resolve pages st p a s tr H.
    apply page_random_inv in H as [_ Hf]. apply Hf. reflexivity.
Qed.

Lemma session_found_path_saved_witness :
  dir_exists
    (save_dir (snd (fst (met_random sample_decode (Some true) 0 sample_fetch
                           sample_met_jget (Ret ["5"]) ledger_12))))
    "view_of_toledo_met_5.jpg" = true /\
  dir_exists
    (save_dir (snd (fst (page_random sample_decode (Some true) 0 sample_fetch "aic" true
                           sample_resolve sample_pages ledger_12))))
    "water_lilies_aic_3.jpg" = true.
Proof.
  split.
  - apply (proj1 (session_found_path_saved sample_decode (Some true) 0 sample_fetch)
             sample_met_jget (Ret ["5"]) ledger_12 "view_of_toledo_met_5.jpg"
             0 (snd (fst (met_random sample_decode (Some true) 0 sample_fetch
                           sample_met_jget (Ret ["5"]) ledger_12)))
             [EvSearch; EvResolve "5"; EvFetch "5"]).
    reflexivity.
  - apply (proj2 (session_found_path_saved sample_decode (Some true) 0 sample_fetch)
             "aic" true sample_resolve sample_pages ledger_12 "water_lilies_aic_3.jpg"
             0 (snd (fst (page_random sample_decode (Some true) 0 sample_fetch "aic" true
                           sample_resolve sample_pages ledger_12)))
             [EvSearch; EvResolve "3"; EvFetch "3"]).
    reflexivity.
Defined.

Lemma page_loop_exhausted (decode : bytes -> decoded) (want : option bool)
    (now : Z) (fetch : string -> exc bytes) (tag : string)
    (resolve : item -> exc (option string)) (pages : list (exc (list item))) :
  forall att st a s tr,
    page_loop decode want now fetch tag resolve pages att st = (Exhausted, a, s, tr) ->
    MAX_ATTEMPTS <= a.
Proof.
  induction pages as [|pg rest IH]; intros att st a s tr H; cbn [page_loop] in H.
  - destruct (Nat.ltb att MAX_ATTEMPTS) eqn:Hlt; [discriminate|].
    inversion H; subst. nat_bools. exact Hlt.
  - destruct (Nat.ltb att MAX_ATTEMPTS) eqn:Hlt;
      [|inversion H; subst; nat_bools; exact Hlt].
    destruct pg as [hits|].
    + destruct (page_items decode want now fetch tag resolve hits att st)
        as [[[pe a'] s'] tr'] eqn:Hp.
      destruct pe; [discriminate| |].
      * destruct (page_loop decode want now fetch tag resolve rest a' s')
          as [[[e2 a2] s2] tr2] eqn:Hr.
        cbn [cons_ev] in H. inversion H; subst. eapply IH. exact Hr.
      * destruct (page_loop decode want now fetch tag resolve rest (S a') s')
          as [[[e2 a2] s2] tr2] eqn:Hr.
        cbn [cons_ev] in H. inversion H; subst. eapply IH. exact Hr.
    + destruct (page_loop decode want now fetch tag resolve rest (S att) st)
        as [[[e2 a2] s2] tr2] eqn:Hr.
      cbn [cons_ev] in H. inversion H; subst. eapply IH. exact Hr.
Qed.

(** X5. A paged back-end gives up with "exhausted" only when its attempt
    counter has reached exactly [MAX_ATTEMPTS] (30). *)
Theorem page_random_exhausted_at_max (decode : bytes -> decoded)
    (want : option bool) (now : Z) (fetch : string -> exc bytes) (tag : string)
    (has_key : bool) (resolve : item -> exc (option string))
    (pages : list (exc (list item))) (st : state) (a : nat) (s : state)
    (tr : list event) :
  page_random decode want now fetch tag has_key resolve pages st = (Exhausted, a, s, tr) ->
  a = MAX_ATTEMPTS.
Proof.
  unfold page_random. destruct has_key; [|discriminate]. intros H.
  pose proof (page_loop_exhausted decode want now fetch tag resolve pages 0 st a s tr H).
  pose proof (page_loop_bound decode want now fetch tag resolve pages 0 st Exhausted a s tr
                ltac:(unfold MAX_ATTEMPTS; lia) H).
  lia.
Qed.

Lemma page_random_exhausted_at_max_witness :
  page_random sample_decode (Some true) 0 sample_fetch "ham" true sample_resolve
    (repeat Raised 31) ledger_12
    = (Exhausted, 30, ledger_12, repeat EvSearch 30) /\
  30 = MAX_ATTEMPTS.
Proof.
  split; [reflexivity|].
  apply (page_random_exhausted_at_max sample_decode (Some true) 0 sample_fetch "ham"
           true sample_resolve (repeat Raised 31) ledger_12 30 ledger_12
           (repeat EvSearch 30)).
  reflexivity.
Defined.

(* ------------------------------------------------------------------ *)
(** ** What [save_if_ok] writes *)

Lemma str_app_cons (x : ascii) (a b : string) : (String x a ++ b) = String x (a ++ b).
Proof. reflexivity. Qed.

Lemma str_app_assoc (a b c : string) : (a ++ b ++ c) = ((a ++ b) ++ c).
Proof.
  induction a as [|x a IH]; [reflexivity|]. rewrite !str_app_cons. f_equal. exact IH.
Qed.

Lemma str_length_app (a b : string) :
  String.length (a ++ b) = String.length a + String.length b.
Proof.
  induction a as [|x a IH]; [reflexivity|]. rewrite str_app_cons. cbn. f_equal. exact IH.
Qed.

Lemma str_app_inj_l (a b c : string) : (a ++ c) = (b ++ c) -> a = b.
Proof.
  revert b. induction a as [|x a IH]; intros b H; destruct b as [|y b];
    rewrite ?str_app_cons in H; cbn in H.
  - reflexivity.
  - apply (f_equal String.length) in H. cbn in H. rewrite ?str_length_app in H; cbn [String.length] in H; lia.
  - apply (f_equal String.length) in H. cbn in H. rewrite ?str_length_app in H; cbn [String.length] in H; lia.
  - injection H as -> H. f_equal. apply IH. exact H.
Qed.



(** X6. [save_if_ok] changes no file of the directory other than the target
    [<slug>_<grp>_<oid>.jpg] and the marker [<grp>_<oid>.rej]; when it accepts
    a candidate whose target did not exist, the target holds the fetched bytes. *)
Theorem save_if_ok_frame (decode : bytes -> decoded) (st : state) (data : bytes)
    (title grp oid : string) (want : option bool) (now : Z)
    (r : option string) (st' : state) :
  save_if_ok decode st data title grp oid want now = Ret (r, st') ->
  (forall n, n <> target_name title grp oid ->
             n <> (grp ++ "_" ++ oid ++ REJ_SUFFIX) ->
             dir_lookup (save_dir st') n = dir_lookup (save_dir st) n) /\
  (r <> None -> dir_lookup (save_dir st) (target_name title grp oid) = None ->
   dir_lookup (save_dir st') (target_name title grp oid) = Some (mkfile data now)).
Proof.
  intros H. apply save_if_ok_cases in H as [[-> ->]|[-> ->]]; split.
  - intros n _ Hm. apply save_dir_mark_seen_ne. exact Hm.
  - intros Hr. congruence.
  - intros n Ht _. rewrite save_dir_mark_seen_good. cbn.
    destruct (dir_exists (save_dir st) (target_name title grp oid)); [reflexivity|].
    apply dir_lookup_put_ne. exact Ht.
  - intros _ Hl. rewrite save_dir_mark_seen_good. cbn.
    unfold dir_exists. rewrite Hl. apply dir_lookup_put_eq.
Qed.

Lemma save_if_ok_frame_witness :
  save_if_ok sample_decode (mkstate ∅ [("old_aic_1.jpg", mkfile tall_jpg 1)])
    wide_jpg "Haystacks" "aic" "2" (Some true) 7
    = Ret (Some "haystacks_aic_2.jpg",
           mkstate {[ "aic" := {[ "2" ]} ]}
             [("old_aic_1.jpg", mkfile tall_jpg 1);
              ("haystacks_aic_2.jpg", mkfile wide_jpg 7)]) /\
  dir_lookup [("old_aic_1.jpg", mkfile tall_jpg 1);
              ("haystacks_aic_2.jpg", mkfile wide_jpg 7)] "old_aic_1.jpg"
    = Some (mkfile tall_jpg 1) /\
  dir_lookup [("old_aic_1.jpg", mkfile tall_jpg 1);
              ("haystacks_aic_2.jpg", mkfile wide_jpg 7)] "haystacks_aic_2.jpg"
    = Some (mkfile wide_jpg 7).
Proof.
  assert (E : save_if_ok sample_decode (mkstate ∅ [("old_aic_1.jpg", mkfile tall_jpg 1)])
    wide_jpg "Haystacks" "aic" "2" (Some true) 7
    = Ret (Some "haystacks_aic_2.jpg",
           mkstate {[ "aic" := {[ "2" ]} ]}
             [("old_aic_1.jpg", mkfile tall_jpg 1);
              ("haystacks_aic_2.jpg", mkfile wide_jpg 7)])).
  { reflexivity. }
  pose proof (save_if_ok_frame sample_decode
                (mkstate ∅ [("old_aic_1.jpg", mkfile tall_jpg 1)])
                wide_jpg "Haystacks" "aic" "2" (Some true) 7 _ _ E) as [H1 H2].
  split; [exact E|]. split.
  - apply (H1 "old_aic_1.jpg"); discriminate.
  - apply H2; [discriminate | reflexivity].
Defined.

(* ------------------------------------------------------------------ *)
(** ** [local_cycle] *)

(** X8. The file chosen by [local_cycle] is a [*.jpg] file of the directory
    that opens with the requested orientation and whose [os.utime]
    succeeded, and no other file that opens with that orientation and
    accepts [os.utime] has an older access time: the offline mode shows the
    least recently shown picture it can refresh. *)
Theorem local_cycle_oldest (decode : bytes -> decoded)
    (utime_ok read_bumps : string -> bool) (d : directory)
    (w : option bool) (now : Z) (p : string) (d' : directory) :
  local_cycle decode utime_ok read_bumps d w now = LcOk p d' ->
  exists f,
    In (p, f) (glob_jpg d) /\ lc_match decode w (p, f) = true /\ utime_ok p = true /\
    forall e, In e (glob_jpg d) -> lc_sel decode utime_ok w e = true ->
      (atime f <= atime (snd e))%Z.
Proof.
  intros H. apply local_cycle_ok in H as (pre & f & post & Hs & Hm & Hu & Hpre & _).
  exists f. split.
  { apply In_sorted_glob. rewrite Hs. apply in_or_app. right. left. reflexivity. }
  split; [exact Hm|]. split; [exact Hu|].
  intros e He Hse. apply In_sorted_glob in He. rewrite Hs in He.
  apply in_app_or in He as [He|[He|He]].
  - rewrite List.Forall_forall in Hpre. rewrite (Hpre e He) in Hse. discriminate.
  - subst e. cbn. lia.
  - pose proof (sort_by_atime_sorted (glob_jpg d)) as Hsorted. rewrite Hs in Hsorted.
    exact (sorted_app_before _ _ _ _ Hsorted He).
Qed.

(** Three pictures: two wide ones and a tall one seen long ago. *)
Definition three_dir : directory :=
  [("c_aic_3.jpg", mkfile wide_jpg 8%Z); ("t_met_9.jpg", mkfile tall_jpg 1%Z);
   ("b_met_2.jpg", mkfile wide_jpg 5%Z); ("notes.txt", mkfile [] 0%Z)].

(** [os.utime] fails on [b_met_2.jpg] only. *)
Definition utime_fails_on_b (n : string) : bool := negb (String.eqb n "b_met_2.jpg").

Lemma local_cycle_oldest_witness :
  local_cycle sample_decode utime_fails_on_b (fun _ => true) three_dir (Some true) 20
    = LcOk "c_aic_3.jpg"
        [("c_aic_3.jpg", mkfile wide_jpg 20%Z); ("t_met_9.jpg", mkfile tall_jpg 20%Z);
         ("b_met_2.jpg", mkfile wide_jpg 20%Z); ("notes.txt", mkfile [] 0%Z)] /\
  exists f,
    In ("c_aic_3.jpg", f) (glob_jpg three_dir) /\
    lc_match sample_decode (Some true) ("c_aic_3.jpg", f) = true /\
    utime_fails_on_b "c_aic_3.jpg" = true /\
    forall e, In e (glob_jpg three_dir) -> lc_sel sample_decode utime_fails_on_b (Some true) e = true ->
      (atime f <= atime (snd e))%Z.
Proof.
  split; [vm_compute; reflexivity|].
  apply (local_cycle_oldest sample_decode utime_fails_on_b (fun _ => true) three_dir
           (Some true) 20 "c_aic_3.jpg"
           [("c_aic_3.jpg", mkfile wide_jpg 20%Z); ("t_met_9.jpg", mkfile tall_jpg 20%Z);
            ("b_met_2.jpg", mkfile wide_jpg 20%Z); ("notes.txt", mkfile [] 0%Z)]).
  vm_compute. reflexivity.
Defined.

(* ------------------------------------------------------------------ *)
(** ** [slug] *)

(** The characters [slug] may produce. *)
Definition slug_char (c : ascii) : bool :=
  is_lower_c c || is_digit c || Ascii.eqb c "_"%char.

Fixpoint forall_chars (p : ascii -> bool) (s : string) : bool :=
  match s with
  | EmptyString => true
  | String c s' => p c && forall_chars p s'
  end.

(** [s] is made of alphanumerics and single underscores; with [prev_us] it
    does not start with an underscore either. *)
Fixpoint clean (prev_us : bool) (s : string) : bool :=
  match s with
  | EmptyString => true
  | String c s' =>
      if is_alnum c then clean false s'
      else if Ascii.eqb c "_"%char then negb prev_us && clean true s'
      else false
  end.

Ltac all_ascii c := destruct c as [[] [] [] [] [] [] [] []]; vm_compute; try reflexivity.

Lemma us_not_alnum : is_alnum "_"%char = false.
Proof. reflexivity. Qed.

Lemma lower_c_alnum (c : ascii) : is_alnum c = true -> slug_char (lower_c c) = true.
Proof. all_ascii c; discriminate. Qed.

Lemma lower_c_is_alnum (c : ascii) : is_alnum (lower_c c) = is_alnum c.
Proof. all_ascii c. Qed.

Lemma lower_c_us (c : ascii) : Ascii.eqb (lower_c c) "_"%char = Ascii.eqb c "_"%char.
Proof. all_ascii c. Qed.

Lemma lower_c_slug_char (c : ascii) : slug_char c = true -> lower_c c = c.
Proof. all_ascii c; discriminate. Qed.

Lemma slug_char_clean (c : ascii) :
  slug_char c = true -> is_alnum c = false -> c = "_"%char.
Proof. all_ascii c; discriminate. Qed.

Lemma clean_true_false (s : string) : clean true s = true -> clean false s = true.
Proof.
  destruct s as [|c s]; cbn; [reflexivity|].
  destruct (is_alnum c); [auto|]. destruct (Ascii.eqb c "_"%char); cbn; discriminate.
Qed.

Lemma sub_nonalnum_clean (b : bool) (s : string) : clean b (sub_nonalnum b s) = true.
Proof.
  revert b. induction s as [|c s IH]; intros b; cbn; [reflexivity|].
  destruct (is_alnum c) eqn:Ha; cbn.
  - rewrite Ha. apply IH.
  - destruct b; [apply IH|]. cbn. apply IH.
Qed.

Lemma sub_nonalnum_id (b : bool) (s : string) : clean b s = true -> sub_nonalnum b s = s.
Proof.
  revert b. induction s as [|c s IH]; intros b H; cbn in *; [reflexivity|].
  destruct (is_alnum c) eqn:Ha.
  - f_equal. apply IH. exact H.
  - destruct (Ascii.eqb c "_"%char) eqn:Hu; [|discriminate].
    apply Ascii.eqb_eq in Hu. subst c.
    destruct b; cbn in H; [discriminate|]. f_equal. apply IH. exact H.
Qed.

Lemma clean_substring (b : bool) (n : nat) (s : string) :
  clean b s = true -> clean b (substring 0 n s) = true.
Proof.
  revert b n. induction s as [|c s IH]; intros b n H; destruct n as [|n]; cbn in *;
    try reflexivity.
  destruct (is_alnum c); [apply IH; exact H|].
  destruct (Ascii.eqb c "_"%char); [|discriminate].
  apply andb_prop in H as [H1 H2]. rewrite H1. cbn. apply IH. exact H2.
Qed.

Lemma substring_length_le (n : nat) (s : string) :
  String.length (substring 0 n s) <= n.
Proof.
  revert n. induction s as [|c s IH]; intros n; destruct n as [|n]; cbn; try lia.
  specialize (IH n). lia.
Qed.

Lemma substring_all (n : nat) (s : string) :
  String.length s <= n -> substring 0 n s = s.
Proof.
  revert n. induction s as [|c s IH]; intros n H; destruct n as [|n]; cbn in *;
    try reflexivity; try lia.
  f_equal. apply IH. lia.
Qed.

Lemma lstrip_clean (s : string) : clean false s = true -> clean true (lstrip_us s) = true.
Proof.
  induction s as [|c s IH]; intros H; [reflexivity|].
  cbn in H. destruct (Ascii.eqb c "_"%char) eqn:Hu.
  - apply Ascii.eqb_eq in Hu. subst c. rewrite us_not_alnum in H. cbn in H.
    destruct s as [|c' s']; [reflexivity|].
    cbn in H. destruct (is_alnum c') eqn:Ha.
    + cbn. destruct (Ascii.eqb c' "_"%char) eqn:Hu'.
      * apply Ascii.eqb_eq in Hu'. subst c'. discriminate.
      * assert (Hc : c' <> "_"%char) by (intros ->; discriminate).
        change (lstrip_us (String c' s')) with
          (match c' with "_"%char => lstrip_us s' | _ => String c' s' end).
        destruct c' as [[] [] [] [] [] [] [] []]; try (exfalso; apply Hc; reflexivity);
          cbn; rewrite Ha; exact H.
    + destruct (Ascii.eqb c' "_"%char); cbn in H; discriminate.
  - assert (Hc : c <> "_"%char) by (intros ->; discriminate).
    change (lstrip_us (String c s)) with
      (match c with "_"%char => lstrip_us s | _ => String c s end).
    destruct (is_alnum c) eqn:Ha; [|discriminate].
    destruct c as [[] [] [] [] [] [] [] []]; try (exfalso; apply Hc; reflexivity);
      cbn; rewrite Ha; exact H.
Qed.

Lemma lstrip_us_cons_ne (c : ascii) (s : string) :
  c <> "_"%char -> lstrip_us (String c s) = String c s.
Proof.
  intros H. destruct c as [[] [] [] [] [] [] [] []]; try reflexivity.
  exfalso. apply H. reflexivity.
Qed.

Lemma str_list_app (a b : string) :
  list_ascii_of_string (a ++ b) = (list_ascii_of_string a ++ list_ascii_of_string b)%list.
Proof.
  induction a as [|c a IH]; [reflexivity|]. rewrite str_app_cons. cbn. f_equal. exact IH.
Qed.

Lemma list_str_app (a b : list ascii) :
  string_of_list_ascii (a ++ b)%list = (string_of_list_ascii a ++ string_of_list_ascii b).
Proof.
  induction a as [|c a IH]; [reflexivity|]. cbn. rewrite str_app_cons. f_equal. exact IH.
Qed.

Lemma str_app_nil_r (a : string) : (a ++ "") = a.
Proof. induction a as [|c a IH]; [reflexivity|]. rewrite str_app_cons. f_equal. exact IH. Qed.

Lemma lstrip_decomp (s : string) :
  exists k, s = (string_of_list_ascii (repeat "_"%char k) ++ lstrip_us s) /\
            forall t, lstrip_us s <> String "_" t.
Proof.
  induction s as [|c s IH].
  - exists 0. split; [reflexivity|]. intros t H. discriminate.
  - destruct (ascii_dec c "_") as [->|Hc].
    + destruct IH as (k & Hk & Hn). exists (S k). cbn. rewrite str_app_cons.
      split; [f_equal; exact Hk | exact Hn].
    + exists 0. rewrite lstrip_us_cons_ne by exact Hc. split; [reflexivity|].
      intros t H. injection H as H _. exact (Hc H).
Qed.

Lemma all_us_repeat (k : nat) :
  forall_chars (fun c => Ascii.eqb c "_"%char) (string_of_list_ascii (repeat "_"%char k))
    = true.
Proof. induction k as [|k IH]; [reflexivity|]. exact IH. Qed.

Lemma all_us_last (u : string) :
  forall_chars (fun c => Ascii.eqb c "_"%char) u = true -> u <> "" ->
  exists u0, u = (u0 ++ "_").
Proof.
  induction u as [|c u IH]; intros H Hne; [congruence|].
  cbn in H. apply andb_prop in H as [Hc H]. apply Ascii.eqb_eq in Hc. subst c.
  destruct u as [|c' u'].
  - exists "". reflexivity.
  - destruct (IH H ltac:(discriminate)) as (u0 & Hu0). exists (String "_" u0).
    rewrite Hu0. reflexivity.
Qed.

(** [rstrip_us s] is [s] without its trailing underscores. *)
Lemma rstrip_decomp (s : string) :
  exists u, s = (rstrip_us s ++ u) /\
            forall_chars (fun c => Ascii.eqb c "_"%char) u = true /\
            forall x, rstrip_us s <> (x ++ "_").
Proof.
  unfold rstrip_us.
  set (t := string_of_list_ascii (rev (list_ascii_of_string s))).
  destruct (lstrip_decomp t) as (k & Hk & Hn).
  set (t' := lstrip_us t) in *.
  assert (HL : rev (list_ascii_of_string s)
               = (repeat "_"%char k ++ list_ascii_of_string t')%list).
  { transitivity (list_ascii_of_string t).
    - unfold t. rewrite list_ascii_of_string_of_list_ascii. reflexivity.
    - rewrite Hk at 1. rewrite str_list_app, list_ascii_of_string_of_list_ascii.
      reflexivity. }
  exists (string_of_list_ascii (repeat "_"%char k)). split; [|split].
  - rewrite <- list_str_app. rewrite <- (rev_repeat k "_"%char), <- rev_app_distr.
    rewrite <- HL, rev_involutive. symmetry. apply string_of_list_ascii_of_string.
  - apply all_us_repeat.
  - intros x Hx. apply (f_equal list_ascii_of_string) in Hx.
    rewrite list_ascii_of_string_of_list_ascii, str_list_app in Hx. cbn in Hx.
    apply (f_equal (@rev ascii)) in Hx. rewrite rev_involutive, rev_app_distr in Hx.
    cbn in Hx. apply (Hn (string_of_list_ascii (rev (list_ascii_of_string x)))).
    rewrite <- (string_of_list_ascii_of_string t'), Hx. reflexivity.
Qed.

Lemma rstrip_id (s : string) : (forall x, s <> (x ++ "_")) -> rstrip_us s = s.
Proof.
  intros Hs. destruct (rstrip_decomp s) as (u & Hu & Hus & _).
  destruct u as [|c u'].
  - rewrite str_app_nil_r in Hu. symmetry. exact Hu.
  - exfalso. destruct (all_us_last _ Hus ltac:(discriminate)) as (u0 & Hu0).
    rewrite Hu0, str_app_assoc in Hu. exact (Hs _ Hu).
Qed.

Lemma clean_app_l (b : bool) (x y : string) : clean b (x ++ y) = true -> clean b x = true.
Proof.
  revert b. induction x as [|c x IH]; intros b H; [reflexivity|].
  rewrite str_app_cons in H. cbn in *.
  destruct (is_alnum c); [apply IH; exact H|].
  destruct (Ascii.eqb c "_"%char); [|discriminate].
  apply andb_prop in H as [H1 H2]. rewrite H1. cbn. apply IH. exact H2.
Qed.

Lemma lower_clean (b : bool) (s : string) : clean b (lower s) = clean b s.
Proof.
  revert b. induction s as [|c s IH]; intros b; [reflexivity|]. cbn.
  rewrite lower_c_is_alnum, lower_c_us, !IH. reflexivity.
Qed.

Lemma lower_length (s : string) : String.length (lower s) = String.length s.
Proof. induction s as [|c s IH]; [reflexivity|]. cbn. f_equal. exact IH. Qed.

Lemma lower_not_end (s : string) :
  (forall x, s <> (x ++ "_")) -> forall x, lower s <> (x ++ "_").
Proof.
  induction s as [|c s IH]; intros Hs x H.
  - destruct x; discriminate.
  - cbn in H. destruct x as [|y x].
    + cbn in H. injection H as Hc Hl. destruct s; [|discriminate].
      assert (c = "_"%char).
      { apply Ascii.eqb_eq. rewrite <- lower_c_us, Hc. reflexivity. }
      subst c. exact (Hs "" eq_refl).
    + rewrite str_app_cons in H. injection H as _ H.
      refine (IH _ x H). intros x0 Hx0. apply (Hs (String c x0)).
      rewrite Hx0. reflexivity.
Qed.

Lemma lower_slug_chars (b : bool) (s : string) :
  clean b s = true -> forall_chars slug_char (lower s) = true.
Proof.
  revert b. induction s as [|c s IH]; intros b H; [reflexivity|]. cbn in *.
  destruct (is_alnum c) eqn:Ha.
  - rewrite lower_c_alnum by exact Ha. cbn. eapply IH. exact H.
  - destruct (Ascii.eqb c "_"%char) eqn:Hu; [|discriminate].
    apply Ascii.eqb_eq in Hu. subst c. apply andb_prop in H as [_ H].
    cbn. eapply IH. exact H.
Qed.

Lemma lower_id (s : string) : forall_chars slug_char s = true -> lower s = s.
Proof.
  induction s as [|c s IH]; intros H; [reflexivity|]. cbn in *.
  apply andb_prop in H as [Hc H]. rewrite lower_c_slug_char by exact Hc.
  f_equal. apply IH. exact H.
Qed.

Lemma lstrip_id (s : string) : clean true s = true -> lstrip_us s = s.
Proof.
  destruct s as [|c s]; [reflexivity|]. intros H.
  apply lstrip_us_cons_ne. intros ->. discriminate.
Qed.

(** The properties of a [slug] result, as boolean tests. *)
Definition slug_shape (r : string) : Prop :=
  r <> "" /\ String.length r <= 60 /\ clean true r = true /\
  (forall x, r <> (x ++ "_")) /\ forall_chars slug_char r = true.

Lemma slug_shape_ok (s : string) : slug_shape (slug s).
Proof.
  unfold slug.
  set (A := substring 0 60 (sub_nonalnum false s)).
  assert (HA : clean false A = true).
  { apply clean_substring. apply sub_nonalnum_clean. }
  assert (HAl : String.length A <= 60) by apply substring_length_le.
  destruct (lstrip_decomp A) as (k & Hk & _).
  set (B := lstrip_us A) in *.
  assert (HB : clean true B = true) by (apply lstrip_clean; exact HA).
  assert (HBl : String.length B <= 60).
  { rewrite Hk, str_length_app in HAl. lia. }
  destruct (rstrip_decomp B) as (u & Hu & _ & Hne).
  set (C := rstrip_us B) in *.
  assert (HC : clean true C = true) by (apply (clean_app_l _ C u); rewrite <- Hu; exact HB).
  assert (HCl : String.length C <= 60) by (rewrite Hu, str_length_app in HBl; lia).
  destruct (lower C) as [|c r] eqn:HD.
  - split; [discriminate|]. split; [cbn; lia|]. split; [reflexivity|].
    split; [|reflexivity].
    destruct (rstrip_decomp "untitled") as (u' & _ & _ & Hn).
    change (rstrip_us "untitled") with "untitled" in Hn. exact Hn.
  - rewrite <- HD. split; [rewrite HD; discriminate|].
    split; [rewrite lower_length; exact HCl|].
    split; [rewrite lower_clean; exact HC|].
    split; [apply lower_not_end; exact Hne|].
    eapply lower_slug_chars. exact HC.
Qed.

Lemma slug_shape_fixed (r : string) : slug_shape r -> slug r = r.
Proof.
  intros (Hne & Hl & Hc & He & Hch). unfold slug.
  rewrite (sub_nonalnum_id false r) by (apply clean_true_false; exact Hc).
  rewrite substring_all by exact Hl.
  rewrite lstrip_id by exact Hc.
  rewrite rstrip_id by exact He.
  rewrite lower_id by exact Hch.
  destruct r; [congruence|reflexivity].
Qed.

Lemma forall_chars_at (p : ascii -> bool) (a b : string) (c : ascii) :
  forall_chars p (a ++ String c b) = true -> p c = true.
Proof.
  induction a as [|x a IH]; intros H.
  - cbn in H. apply andb_prop in H as [H _]. exact H.
  - rewrite str_app_cons in H. cbn in H. apply andb_prop in H as [_ H]. exact (IH H).
Qed.

Lemma clean_no_double (b : bool) (a t : string) : clean b (a ++ "__" ++ t) = false.
Proof.
  revert b. induction a as [|c a IH]; intros b.
  - change ("" ++ "__" ++ t) with (String "_" (String "_" t)). destruct b; reflexivity.
  - rewrite str_app_cons. cbn.
    destruct (is_alnum c); [apply IH|].
    destruct (Ascii.eqb c "_"%char); [|reflexivity]. rewrite IH, andb_false_r. reflexivity.
Qed.

(** X10. [slug] always returns a non-empty name of at most 60 characters,
    made of lower-case ASCII letters, digits and underscores, which neither
    starts nor ends with an underscore and has no two underscores in a row. *)
Theorem slug_output_shape (s : string) :
  slug s <> "" /\ String.length (slug s) <= 60 /\
  (forall a c b, slug s = (a ++ String c b) ->
     is_lower_c c || is_digit c || Ascii.eqb c "_"%char = true) /\
  (forall t, slug s <> String "_" t) /\
  (forall t, slug s <> (t ++ "_")) /\
  (forall a b, slug s <> (a ++ "__" ++ b)).
Proof.
  destruct (slug_shape_ok s) as (Hne & Hl & Hc & He & Hch).
  split; [exact Hne|]. split; [exact Hl|]. split.
  { intros a c b Heq. rewrite Heq in Hch. exact (forall_chars_at _ _ _ _ Hch). }
  split.
  { intros t Heq. rewrite Heq in Hc. discriminate. }
  split; [exact He|].
  intros a b Heq. rewrite Heq, clean_no_double in Hc. discriminate.
Qed.

(** X11. [slug] is idempotent: the slug of a slug is the slug itself, so a
    saved file name re-slugged yields the same stem. *)
Theorem slug_idempotent (s : string) : slug (slug s) = slug s.
Proof. apply slug_shape_fixed. apply slug_shape_ok. Qed.

(* ------------------------------------------------------------------ *)
(** ** [_seen_rx] on the names written by [save_if_ok] *)

Definition not_us (c : ascii) : bool := negb (Ascii.eqb c "_"%char).

Lemma str_app_nil_l (a : string) : ("" ++ a) = a.
Proof. reflexivity. Qed.

Lemma strip_prefix_ci_spec (p s r1 : string) :
  strip_prefix_ci p s = Some r1 ->
  s = (substring 0 (String.length p) s ++ r1) /\
  String.length (substring 0 (String.length p) s) = String.length p /\
  (forall_chars not_us p = true ->
   forall_chars not_us (substring 0 (String.length p) s) = true).
Proof.
  revert s. induction p as [|a p IH]; intros s H.
  - cbn in H. injection H as <-. destruct s; repeat split; reflexivity.
  - destruct s as [|b s]; cbn in H; [discriminate|].
    destruct (Ascii.eqb (lower_c a) (lower_c b)) eqn:Hab; [|discriminate].
    destruct (IH s H) as (Hs & Hl & Hn). cbn. rewrite str_app_cons.
    split; [f_equal; exact Hs|]. split; [f_equal; exact Hl|].
    intros Hp. apply andb_prop in Hp as [Ha Hp]. rewrite (Hn Hp), andb_true_r.
    unfold not_us in *. apply Ascii.eqb_eq in Hab.
    rewrite <- lower_c_us, <- Hab, lower_c_us. exact Ha.
Qed.

Lemma span_digits_spec (s d rest : string) :
  span_digits s = (d, rest) -> s = (d ++ rest) /\ forall_chars is_digit d = true.
Proof.
  revert d rest. induction s as [|c s IH]; intros d rest H; cbn in H.
  - injection H as <- <-. split; reflexivity.
  - destruct (is_digit c) eqn:Hc.
    + destruct (span_digits s) as [d' r'] eqn:Hs. injection H as <- <-.
      destruct (IH d' r' eq_refl) as [-> Hd]. rewrite str_app_cons.
      split; [reflexivity|]. cbn. rewrite Hc, Hd. reflexivity.
    + injection H as <- <-. split; reflexivity.
Qed.

Lemma at_end_spec (s : string) : at_end s = true -> s = "" \/ s = String (ascii_of_nat 10) "".
Proof.
  destruct s as [|c [|c' s]]; cbn; intros H; [left; reflexivity| |discriminate].
  right. apply Ascii.eqb_eq in H. subst c. reflexivity.
Qed.

Lemma ext_spec (x r : string) :
  String.length x = 3 ->
  match strip_prefix_ci x r with Some r' => at_end r' | None => false end = true ->
  exists e z, r = (e ++ z) /\ String.length e = 3 /\
              (z = "" \/ z = String (ascii_of_nat 10) "").
Proof.
  intros Hx H. destruct (strip_prefix_ci x r) as [r'|] eqn:Hs; [|discriminate].
  apply strip_prefix_ci_spec in Hs as (Hr & Hl & _).
  exists (substring 0 (String.length x) r), r'. split; [exact Hr|].
  split; [rewrite Hl; exact Hx|]. apply at_end_spec. exact H.
Qed.

Lemma match_ext_spec (s : string) :
  match_ext s = true ->
  exists e z, s = String "." (e ++ z) /\ String.length e = 3 /\
              (z = "" \/ z = String (ascii_of_nat 10) "").
Proof.
  destruct s as [|c r]; [discriminate|].
  destruct c as [[] [] [] [] [] [] [] []]; try discriminate.
  intros H. change (match_ext (String "." r)) with
    (match strip_prefix_ci "jpg" r with Some r' => at_end r' | None => false end
     || match strip_prefix_ci "rej" r with Some r' => at_end r' | None => false end)
    in H.
  apply orb_prop in H as [H|H]; apply ext_spec in H as (e & z & Hr & He & Hz);
    try reflexivity; exists e, z; rewrite Hr; auto.
Qed.

Lemma match_after_tag_spec (r1 d : string) :
  match_after_tag r1 = Some d ->
  exists e z, r1 = String "_" (d ++ String "." (e ++ z)) /\ String.length e = 3 /\
              (z = "" \/ z = String (ascii_of_nat 10) "") /\
              forall_chars is_digit d = true.
Proof.
  destruct r1 as [|c r]; [discriminate|].
  destruct c as [[] [] [] [] [] [] [] []]; try discriminate.
  change (match_after_tag (String "_" r)) with
    (let '(d, rest) := span_digits r in
     match d with
     | EmptyString => None
     | _ => if match_ext rest then Some d else None
     end).
  destruct (span_digits r) as [d' rest] eqn:Hs. cbn zeta.
  intros H. apply span_digits_spec in Hs as [-> Hd].
  destruct d' as [|c d'']; [discriminate|].
  destruct (match_ext rest) eqn:Hm; [|discriminate]. injection H as <-.
  apply match_ext_spec in Hm as (e & z & -> & He & Hz).
  exists e, z. auto.
Qed.

(** The [try_tags] loop of [match_here], at a given remainder [r]. *)
Fixpoint try_tags_at (r : string) (ts : list string) : option (string * string) :=
  match ts with
  | [] => None
  | t :: ts' =>
      match strip_prefix_ci t r with
      | Some r1 =>
          match match_after_tag r1 with
          | Some d => Some (substring 0 (String.length t) r, d)
          | None => try_tags_at r ts'
          end
      | None => try_tags_at r ts'
      end
  end.

Lemma match_here_us (r : string) :
  match_here (String "_" r) = try_tags_at r backend_tags.
Proof. reflexivity. Qed.

Lemma try_tags_at_spec (r : string) (ts : list string) (t d : string) :
  try_tags_at r ts = Some (t, d) ->
  exists tag r1, In tag ts /\ strip_prefix_ci tag r = Some r1 /\
    t = substring 0 (String.length tag) r /\ match_after_tag r1 = Some d.
Proof.
  induction ts as [|tag ts IH]; cbn; [discriminate|].
  destruct (strip_prefix_ci tag r) as [r1|] eqn:Hs.
  - destruct (match_after_tag r1) as [d'|] eqn:Hm.
    + intros H. injection H as <- <-. exists tag, r1. auto.
    + intros H. destruct (IH H) as (tag' & r1' & ? & ? & ? & ?). exists tag', r1'. auto.
  - intros H. destruct (IH H) as (tag' & r1' & ? & ? & ? & ?). exists tag', r1'. auto.
Qed.

Lemma backend_tags_not_us (tag : string) :
  In tag backend_tags -> forall_chars not_us tag = true.
Proof. intros H. repeat (destruct H as [<-|H]; [reflexivity|]). destruct H. Qed.

Lemma match_here_shape (s t d : string) :
  match_here s = Some (t, d) ->
  exists e z,
    s = String "_" (t ++ String "_" (d ++ String "." (e ++ z))) /\
    String.length e = 3 /\ (z = "" \/ z = String (ascii_of_nat 10) "") /\
    forall_chars is_digit d = true /\ forall_chars not_us t = true.
Proof.
  destruct s as [|c r]; [discriminate|].
  destruct c as [[] [] [] [] [] [] [] []]; try discriminate.
  rewrite match_here_us. intros H.
  apply try_tags_at_spec in H as (tag & r1 & Hin & Hs & -> & Hm).
  apply strip_prefix_ci_spec in Hs as (Hr & _ & Hn).
  apply match_after_tag_spec in Hm as (e & z & -> & He & Hz & Hd).
  exists e, z. rewrite Hr at 1. split; [reflexivity|].
  split; [exact He|]. split; [exact Hz|]. split; [exact Hd|].
  apply Hn. apply backend_tags_not_us. exact Hin.
Qed.

Lemma span_digits_app (d rest : string) :
  forall_chars is_digit d = true ->
  match rest with String c _ => is_digit c = false | EmptyString => True end ->
  span_digits (d ++ rest) = (d, rest).
Proof.
  intros Hd Hr. induction d as [|c d IH].
  - destruct rest as [|c r]; [reflexivity|]. cbn [span_digits].
    change ("" ++ String c r) with (String c r). cbn [span_digits]. rewrite Hr. reflexivity.
  - cbn in Hd. apply andb_prop in Hd as [Hc Hd]. rewrite str_app_cons. cbn [span_digits].
    rewrite Hc, IH by exact Hd. reflexivity.
Qed.

Lemma match_after_tag_digits (oid : string) :
  oid <> "" -> forall_chars is_digit oid = true ->
  match_after_tag (String "_" (oid ++ ".jpg")) = Some oid.
Proof.
  intros Hne Hd.
  change (match_after_tag (String "_" (oid ++ ".jpg"))) with
    (let '(d, rest) := span_digits (oid ++ ".jpg") in
     match d with
     | EmptyString => None
     | _ => if match_ext rest then Some d else None
     end).
  rewrite span_digits_app by (exact Hd || reflexivity).
  destruct oid; [congruence|reflexivity].
Qed.

Lemma match_here_target (grp oid : string) :
  In grp backend_tags -> oid <> "" -> forall_chars is_digit oid = true ->
  match_here ("_" ++ grp ++ "_" ++ oid ++ ".jpg") = Some (grp, oid).
Proof.
  intros Hin Hne Hd.
  repeat (destruct Hin as [<-|Hin];
    [ rewrite ?str_app_cons, ?str_app_nil_l; rewrite match_here_us;
      cbv -[match_after_tag String.append]; rewrite match_after_tag_digits by assumption;
      reflexivity |]).
  destruct Hin.
Qed.

Lemma forall_chars_Forall (p : ascii -> bool) (s : string) :
  forall_chars p s = true -> Forall (fun c => p c = true) (list_ascii_of_string s).
Proof.
  induction s as [|c s IH]; cbn; intros H; [constructor|].
  apply andb_prop in H as [Hc H]. constructor; [exact Hc | apply IH; exact H].
Qed.

Lemma digit_not_us (c : ascii) : is_digit c = true -> not_us c = true.
Proof. all_ascii c; discriminate. Qed.

Lemma list_ascii_length (s : string) :
  length (list_ascii_of_string s) = String.length s.
Proof. induction s as [|c s IH]; cbn; [reflexivity|]. f_equal. exact IH. Qed.

Lemma list_ascii_inj (s1 s2 : string) :
  list_ascii_of_string s1 = list_ascii_of_string s2 -> s1 = s2.
Proof.
  intros H. rewrite <- (string_of_list_ascii_of_string s1), H.
  apply string_of_list_ascii_of_string.
Qed.

Lemma sep_unique (x1 x2 y1 y2 : list ascii) :
  Forall (fun c => not_us c = true) x1 -> Forall (fun c => not_us c = true) x2 ->
  (x1 ++ "_"%char :: y1)%list = (x2 ++ "_"%char :: y2)%list -> x1 = x2 /\ y1 = y2.
Proof.
  revert x2. induction x1 as [|a x1 IH]; intros x2 H1 H2 H;
    destruct x2 as [|b x2]; cbn in H.
  - injection H as ->. auto.
  - injection H as <- _. inversion H2 as [|? ? Hb _]. discriminate.
  - injection H as -> _. inversion H1 as [|? ? Ha _]. discriminate.
  - injection H as -> H. inversion H1; inversion H2; subst.
    destruct (IH x2) as [-> ->]; auto.
Qed.

(** Any match of [_seen_rx] inside a name written by [save_if_ok] (with a
    numeric id) has the tag and the id of that name. *)
Lemma match_here_in_target (a grp oid t d : string) :
  In grp backend_tags -> forall_chars is_digit oid = true ->
  match_here (a ++ "_" ++ grp ++ "_" ++ oid ++ ".jpg") = Some (t, d) ->
  t = grp /\ d = oid.
Proof.
  intros Hg Ho H.
  apply match_here_shape in H as (e & z & Heq & He & Hz & Hd & Ht).
  apply (f_equal list_ascii_of_string) in Heq.
  destruct Hz as [-> | ->];
    repeat (first [rewrite str_list_app in Heq
                  | progress cbn [list_ascii_of_string] in Heq]);
    rewrite <- (list_ascii_length e) in He;
    destruct (list_ascii_of_string e) as [|e1 [|e2 [|e3 [|e4 E]]]];
    cbn [length] in He; try lia;
    apply (f_equal (@rev ascii)) in Heq;
    repeat (first [rewrite rev_app_distr in Heq | progress cbn [rev] in Heq]);
    rewrite <- ?app_assoc in Heq; cbn [app] in Heq; [|discriminate].
  injection Heq as _ _ _ Heq.
  apply sep_unique in Heq as [HO Heq].
  2:{ apply Forall_rev. apply forall_chars_Forall in Ho.
      eapply Forall_impl; [exact Ho|]. intros c. apply digit_not_us. }
  2:{ apply Forall_rev. apply forall_chars_Forall in Hd.
      eapply Forall_impl; [exact Hd|]. intros c. apply digit_not_us. }
  apply sep_unique in Heq as [HG _].
  2:{ apply Forall_rev. apply forall_chars_Forall. apply backend_tags_not_us. exact Hg. }
  2:{ apply Forall_rev. apply forall_chars_Forall. exact Ht. }
  apply (f_equal (@rev ascii)) in HO, HG. rewrite !rev_involutive in HO, HG.
  split; apply list_ascii_inj; symmetry; assumption.
Qed.

Lemma seen_rx_search_eq (s : string) :
  seen_rx_search s =
  match match_here s with
  | Some m => Some m
  | None => match s with EmptyString => None | String _ s' => seen_rx_search s' end
  end.
Proof. destruct s; reflexivity. Qed.

Lemma seen_rx_search_app (a s : string) (mm : string * string) :
  match_here s = Some mm ->
  (forall a1 a2, a = (a1 ++ a2) -> a2 <> "" ->
     match_here (a2 ++ s) = None \/ match_here (a2 ++ s) = Some mm) ->
  seen_rx_search (a ++ s) = Some mm.
Proof.
  intros Hs. induction a as [|c a IH]; intros Hpos.
  - change ("" ++ s) with s. rewrite seen_rx_search_eq, Hs. reflexivity.
  - rewrite seen_rx_search_eq.
    destruct (Hpos "" (String c a) eq_refl ltac:(discriminate)) as [-> | ->];
      [|reflexivity].
    rewrite str_app_cons. apply IH.
    intros a1 a2 Ha Hne. apply (Hpos (String c a1) a2); [|exact Hne].
    rewrite Ha. reflexivity.
Qed.

Lemma seen_rx_target (title grp oid : string) :
  In grp backend_tags -> oid <> "" -> forall_chars is_digit oid = true ->
  seen_rx_search (target_name title grp oid) = Some (grp, oid).
Proof.
  intros Hg Hne Hd. unfold target_name.
  apply seen_rx_search_app; [apply match_here_target; assumption|].
  intros a1 a2 _ _.
  destruct (match_here (a2 ++ "_" ++ grp ++ "_" ++ oid ++ ".jpg")) as [[t d]|] eqn:Hm;
    [|left; reflexivity].
  right. apply match_here_in_target in Hm as [-> ->]; [reflexivity | exact Hg | exact Hd].
Qed.

(** X12. [_seen_rx] reads back the tag and the id of every name
    [<slug>_<grp>_<oid>.jpg] that [save_if_ok] writes for a back-end tag [grp]
    and a non-empty numeric id [oid], whatever the title. *)
Theorem seen_rx_reads_target (title grp oid : string) :
  In grp backend_tags -> oid <> "" -> forall_chars is_digit oid = true ->
  seen_rx_search (target_name title grp oid) = Some (grp, oid).
Proof. apply seen_rx_target. Qed.

Lemma seen_rx_reads_target_witness :
  seen_rx_search (target_name "Wheat Field with Cypresses (1889)" "met" "436535")
    = Some ("met", "436535").
Proof.
  apply seen_rx_reads_target; [cbn; tauto | discriminate | reflexivity].
Defined.

(* ------------------------------------------------------------------ *)
(** ** [_index_seen] *)

(** One iteration of the loop of [_index_seen]. *)
Definition index_step (out : seen_index) (e : string * file) : seen_index :=
  let '(name, _) := e in
  match seen_rx_search name with
  | Some (g, oid) =>
      let g' := lower g in
      <[g' := {[oid]} ∪ default ∅ (out !! g')]> out
  | None => out
  end.

Lemma index_seen_fold (d : directory) : index_seen d = fold_left index_step d ∅.
Proof. reflexivity. Qed.

Lemma index_step_spec (acc : seen_index) (name : string) (f : file) (g oid : string) :
  oid ∈ default ∅ (index_step acc (name, f) !! g) <->
  oid ∈ default ∅ (acc !! g) \/
  exists g0, seen_rx_search name = Some (g0, oid) /\ lower g0 = g.
Proof.
  unfold index_step. destruct (seen_rx_search name) as [[g0 o]|].
  - rewrite lookup_insert. case_decide as Heq.
    + subst g. cbn. rewrite elem_of_union, elem_of_singleton. split.
      * intros [->|H]; [right; exists g0; auto | left; exact H].
      * intros [H|(g1 & Hm & _)]; [right; exact H|]. injection Hm as _ ->. left. reflexivity.
    + split; [intros H; left; exact H|].
      intros [H|(g1 & Hm & Hl)]; [exact H|]. injection Hm as <- _. congruence.
  - split; [intros H; left; exact H|]. intros [H|(g1 & Hm & _)]; [exact H|discriminate].
Qed.

Lemma index_fold_spec (d : directory) :
  forall (acc : seen_index) (g oid : string),
    oid ∈ default ∅ (fold_left index_step d acc !! g) <->
    oid ∈ default ∅ (acc !! g) \/
    exists name f g0, In (name, f) d /\ seen_rx_search name = Some (g0, oid) /\
                      lower g0 = g.
Proof.
  induction d as [|[name f] d IH]; intros acc g oid; cbn [fold_left].
  - split; [intros H; left; exact H|]. intros [H|(? & ? & ? & [] & _)]. exact H.
  - rewrite IH, index_step_spec. split.
    + intros [[H|(g0 & Hm & Hl)]|(n & f' & g0 & Hin & Hm & Hl)].
      * left. exact H.
      * right. exists name, f, g0. split; [left; reflexivity|]. auto.
      * right. exists n, f', g0. split; [right; exact Hin|]. auto.
    + intros [H|(n & f' & g0 & [Hin|Hin] & Hm & Hl)].
      * left. left. exact H.
      * injection Hin as -> ->. left. right. exists g0. auto.
      * right. exists n, f', g0. auto.
Qed.

Lemma index_seen_iff (d : directory) (g oid : string) :
  seen (start_run d) g oid = true <->
  exists name f g0, In (name, f) d /\ seen_rx_search name = Some (g0, oid) /\ lower g0 = g.
Proof.
  unfold seen. cbn. rewrite bool_decide_eq_true, index_seen_fold, index_fold_spec.
  rewrite lookup_empty. cbn. split.
  - intros [H|H]; [set_solver | exact H].
  - intros H. right. exact H.
Qed.

(** X13. At the start of a run, a pair [(g, oid)] is seen exactly when some
    file of the saved-images directory has a name in which [_seen_rx] finds
    the id [oid] after a tag whose lower case is [g]. *)
Theorem index_seen_exact (d : directory) (g oid : string) :
  seen (start_run d) g oid = true <->
  exists name f g0, In (name, f) d /\ seen_rx_search name = Some (g0, oid) /\ lower g0 = g.
Proof. apply index_seen_iff. Qed.

Lemma backend_tags_slug_chars (tag : string) :
  In tag backend_tags -> forall_chars slug_char tag = true.
Proof. intros H. repeat (destruct H as [<-|H]; [reflexivity|]). destruct H. Qed.

Lemma dir_lookup_Some_In (d : directory) (n : string) (f : file) :
  dir_lookup d n = Some f -> In (n, f) d.
Proof.
  induction d as [|[n' f'] d IH]; cbn; [discriminate|].
  destruct (String.eqb n n') eqn:E.
  - intros H. injection H as <-. apply String.eqb_eq in E. subst. left. reflexivity.
  - intros H. right. apply IH. exact H.
Qed.

(** X14. An image accepted by [save_if_ok] under a back-end tag with a
    non-empty numeric id is in the seen index that the next run builds from
    the directory, so the next run does not fetch it again. *)
Theorem accepted_seen_next_run (decode : bytes -> decoded) (st : state)
    (data : bytes) (title grp oid : string) (want : option bool) (now : Z)
    (p : string) (st' : state) :
  In grp backend_tags -> oid <> "" -> forall_chars is_digit oid = true ->
  save_if_ok decode st data title grp oid want now = Ret (Some p, st') ->
  seen (start_run (save_dir st')) grp oid = true.
Proof.
  intros Hg Hne Hd H. pose proof H as Hx. apply save_if_ok_path_exists in Hx.
  apply save_if_ok_cases in H as [[? _]|[Hp _]]; [discriminate|].
  injection Hp as ->. unfold dir_exists in Hx.
  destruct (dir_lookup (save_dir st') (target_name title grp oid)) as [f|] eqn:Hl;
    [|discriminate].
  apply index_seen_iff. exists (target_name title grp oid), f, grp.
  split; [apply dir_lookup_Some_In; exact Hl|].
  split; [apply seen_rx_target; assumption|].
  apply lower_id. apply backend_tags_slug_chars. exact Hg.
Qed.

Lemma index_seen_exact_witness :
  seen (start_run [("notes.txt", mkfile [] 0); ("dunes_CMA_12.jpg", mkfile wide_jpg 4)])
    "cma" "12" = true.
Proof.
  apply (proj2 (index_seen_exact
                  [("notes.txt", mkfile [] 0); ("dunes_CMA_12.jpg", mkfile wide_jpg 4)]
                  "cma" "12")).
  exists "dunes_CMA_12.jpg", (mkfile wide_jpg 4), "CMA".
  split; [right; left; reflexivity|]. split; reflexivity.
Defined.

Lemma accepted_seen_next_run_witness :
  save_if_ok sample_decode (start_run []) wide_jpg "Haystacks" "aic" "2" (Some true) 7
    = Ret (Some "haystacks_aic_2.jpg",
           mkstate {[ "aic" := {[ "2" ]} ]}
             [("haystacks_aic_2.jpg", mkfile wide_jpg 7)]) /\
  seen (start_run [("haystacks_aic_2.jpg", mkfile wide_jpg 7)]) "aic" "2" = true.
Proof.
  split; [reflexivity|].
  apply (accepted_seen_next_run sample_decode (start_run []) wide_jpg "Haystacks" "aic" "2"
           (Some true) 7 "haystacks_aic_2.jpg"
           (mkstate {[ "aic" := {[ "2" ]} ]} [("haystacks_aic_2.jpg", mkfile wide_jpg 7)]));
    [cbn; tauto | discriminate | reflexivity | reflexivity].
Defined.

(* ------------------------------------------------------------------ *)
(** ** The back-ends [main] chooses *)

(** The keys of [BACKENDS], in the order of its construction: the [_tag]s of
    [met_random], [aic_random], [cma_random], [mia_random], [ham_random],
    [rijks_random] and [si_random]. *)
Definition BACKENDS_keys : list string :=
  ["met"; "aic"; "cma"; "mia"; "ham"; "rijks"; "si"].

(** [req=[t for t in BACKENDS if getattr(args,t)]], with [flag t] the value
    of the command-line switch [--t]. *)
Definition main_req (flag : string -> bool) : list string :=
  List.filter flag BACKENDS_keys.

(** [backends=[BACKENDS[t] for t in req] if req else list(BACKENDS.values())],
    as the tags of the chosen back-ends. *)
Definition main_selection (flag : string -> bool) : list string :=
  match main_req flag with
  | [] => BACKENDS_keys
  | req => req
  end.

(** The list [main] hands to its loop after [random.shuffle]: each tag of
    [order] with the outcome of running that back-end. *)
Definition main_tried (run : string -> exc string) (order : list string)
  : list (string * exc string) :=
  map (fun t => (t, run t)) order.

Lemma main_runs_prefix (decode : bytes -> decoded) (utime_ok read_bumps : string -> bool)
    (display : string -> exc unit)
    (bes : list (string * exc string)) (d : directory) (w : option bool) (now : Z) :
  exists sfx, (runs (snd (main decode utime_ok read_bumps display bes d w now)) ++ sfx)%list = map fst bes.
Proof.
  unfold main.
  destruct (main_backends display bes) as [[p|] tr0] eqn:H.
  - destruct (main_backends_some display bes p tr0 H)
      as (pre & t & rest & Hb & _ & _ & Hr & _).
    exists (map fst rest). cbn [snd]. rewrite Hr, Hb, map_app.
    cbn. rewrite <- app_assoc. reflexivity.
  - destruct (main_backends_none display bes tr0 H) as (_ & Hr & _).
    exists [].
    destruct (local_cycle decode utime_ok read_bumps d w now) as [p d'| |];
      [destruct (display p) as [[]|]| |]; cbn [snd];
      rewrite ?runs_app, Hr; cbn; rewrite !app_nil_r; reflexivity.
Qed.

Lemma BACKENDS_keys_NoDup : List.NoDup BACKENDS_keys.
Proof.
  unfold BACKENDS_keys.
  apply NoDup_ListNoDup. apply (bool_decide_unpack _). vm_compute. reflexivity.
Qed.

Lemma main_selection_NoDup (flag : string -> bool) : List.NoDup (main_selection flag).
Proof.
  unfold main_selection.
  destruct (main_req flag) as [|t req] eqn:E.
  - apply BACKENDS_keys_NoDup.
  - rewrite <- E. unfold main_req. apply List.NoDup_filter. apply BACKENDS_keys_NoDup.
Qed.

Lemma main_selection_In (flag : string -> bool) (t : string) :
  In t (main_selection flag) ->
  In t BACKENDS_keys /\ (main_req flag <> [] -> flag t = true).
Proof.
  unfold main_selection.
  destruct (main_req flag) as [|t0 req] eqn:E; intros Hin.
  - split; [exact Hin|]. intros Hc. contradiction.
  - rewrite <- E in Hin. unfold main_req in Hin.
    apply List.filter_In in Hin. destruct Hin as [Hin Hf].
    split; [exact Hin|]. intros _. exact Hf.
Qed.

(** Whatever order [random.shuffle] picks and whatever the back-ends and
    the display do, [main] runs each back-end at most once and only the
    back-ends it selected: when some back-end switch is given, no back-end
    without its switch runs; otherwise any of the seven may. *)
Theorem main_runs_selected (decode : bytes -> decoded)
    (utime_ok read_bumps : string -> bool) (display : string -> exc unit) (run : string -> exc string)
    (flag : string -> bool) (order : list string)
    (d : directory) (w : option bool) (now : Z) :
  Permutation order (main_selection flag) ->
  let tr := snd (main decode utime_ok read_bumps display (main_tried run order) d w now) in
  List.NoDup (runs tr) /\
  (forall t, In t (runs tr) ->
     In t BACKENDS_keys /\ (main_req flag <> [] -> flag t = true)).
Proof.
  intros Hp tr.
  destruct (main_runs_prefix decode utime_ok read_bumps display (main_tried run order) d w now)
    as [sfx Hs].
  fold tr in Hs.
  assert (Hfst : map fst (main_tried run order) = order).
  { unfold main_tried. rewrite map_map. apply map_id. }
  rewrite Hfst in Hs.
  assert (Hnd : List.NoDup order).
  { apply (Permutation_NoDup (Permutation_sym Hp)). apply main_selection_NoDup. }
  split.
  - rewrite <- Hs in Hnd. exact (List.NoDup_app_remove_r _ _ Hnd).
  - intros t Ht. apply main_selection_In.
    apply (Permutation_in t Hp). rewrite <- Hs. apply in_or_app. left. exact Ht.
Qed.

(** With [--cma] only, and the Cleveland back-end raising, [main] runs the
    Cleveland back-end alone and falls back to the offline cycler. *)
Lemma main_runs_selected_witness :
  Permutation ["cma"] (main_selection (fun t => String.eqb t "cma")) /\
  List.NoDup (runs (snd (main sample_decode (fun _ => true) (fun _ => true) (fun _ => Ret tt) (main_tried (fun _ => Raised) ["cma"])
                        [] None 0))) /\
  (forall t, In t (runs (snd (main sample_decode (fun _ => true) (fun _ => true) (fun _ => Ret tt)
                                 (main_tried (fun _ => Raised) ["cma"]) [] None 0))) ->
     In t BACKENDS_keys /\
     (main_req (fun t => String.eqb t "cma") <> [] -> String.eqb t "cma" = true)).
Proof.
  assert (Hp : Permutation ["cma"] (main_selection (fun t => String.eqb t "cma")))
    by (vm_compute; apply Permutation_refl).
  split; [exact Hp|].
  exact (main_runs_selected sample_decode (fun _ => true) (fun _ => true) (fun _ => Ret tt) (fun _ => Raised)
           (fun t => String.eqb t "cma") ["cma"] [] None 0 Hp).
Defined.

(* ------------------------------------------------------------------ *)
(** ** C4: the file behind a returned path *)






Section ReturnedFile.

Variable decode : bytes -> decoded.
Variable want : option bool.
Variable now : Z.
Variable fetch : string -> exc bytes.








End ReturnedFile.





